(** * LineSegm: A* line segmentation of handwritten pages

    A shallow embedding of [linesegm/src/astar.cpp] (the grid, the cost
    model, the A* planner and the path reconstruction) and of the path
    projector of [linesegm-opencv-v4/src/utils.cpp] (painting a boundary
    into an image and cropping a text line).

    Conventions of the embedding:
    - C++ [int] is [Z]; signed overflow is undefined in C++ and is not
      modelled (pixel coordinates stay far inside the 32-bit range).
    - C++ [double] is Rocq's primitive [float] (IEEE 754 binary64, round to
      nearest even), so concrete runs compute the very numbers the program
      computes.
    - [unordered_map] is [gmap], [unordered_set] is [gset], [vector] is
      [list].
    - loops whose trip count is not known in advance take a [nat] of fuel
      and return [None] when it runs out. *)

From Stdlib Require Import ZArith Lia Bool Ascii String Floats.
From stdpp Require Import gmap list.

#[local] Open Scope Z_scope.

(** ** Doubles *)

Module Double.

(** [(double) z] for a 32-bit [int] [z]: exact, every such integer is
    representable. *)
Definition of_int (z : Z) : float :=
  if z <? 0 then PrimFloat.opp (PrimFloat.of_uint63 (Uint63.of_Z (- z)))
  else PrimFloat.of_uint63 (Uint63.of_Z z).

(** [pow(x, 2)]. *)
Definition sq (x : float) : float := PrimFloat.mul x x.

Definition le (a b : float) : Prop := PrimFloat.leb a b = true.
Definition lt (a b : float) : Prop := PrimFloat.ltb a b = true.

End Double.

(** ** cv::Mat of [uchar]

    A single-channel 8-bit matrix stored row-major without padding, as
    [Mat::clone] produces it: pixel [(i, j)] lives at offset
    [i * cols + j]. [Mat::at] does no bounds check in a release build; an
    access whose offset leaves the buffer is undefined behaviour, modelled
    as reading 0 and as a write that is dropped. An access with an
    out-of-range column whose offset stays inside the buffer lands in a
    neighbouring row, as it does in memory. *)

Record Mat := mkMat { rows : Z; cols : Z; data : list Z }.

Definition Node : Type := Z * Z.

Definition offset (m : Mat) (i j : Z) : Z := i * cols m + j.

Definition at_uchar (m : Mat) (i j : Z) : Z :=
  if offset m i j <? 0 then 0
  else default 0 (data m !! Z.to_nat (offset m i j)).

Definition set_uchar (m : Mat) (i j : Z) (v : Z) : Mat :=
  if offset m i j <? 0 then m
  else mkMat (rows m) (cols m) (<[Z.to_nat (offset m i j) := v]> (data m)).

(** The integers [lo, lo+1, ..., hi-1], the index range of a [for] loop. *)
Definition zrange (lo hi : Z) : list Z :=
  map (fun k => lo + Z.of_nat k) (seq 0 (Z.to_nat (hi - lo))).

(** ** astar.cpp *)

Module Astar.

(** *** struct Map *)

Record Map := mkMap { grid : Mat; dmat : Mat }.

Definition directions : list Node :=
  [(-1, -1); (-1, 0); (-1, 1); (0, -1); (0, 1); (1, -1); (1, 0); (1, 1)].

Definition in_bounds (g : Map) (node : Node) : bool :=
  let '(row, col) := node in
  (0 <=? row) && (row <? rows (grid g)) && (0 <=? col) && (col <? cols (grid g)).

Definition is_wall (g : Map) (node : Node) : bool :=
  let '(row, col) := node in at_uchar (grid g) row col =? 0.

Definition neighbors (g : Map) (node : Node) (step : Z) : list Node :=
  let '(row, col) := node in
  filter (fun n => in_bounds g n = true)
         (map (fun '(dr, dc) => (row + step * dr, col + step * dc)) directions).

Section WithInfinity.

(** [closest_vertical_obstacle] is declared to return [int] and ends in
    [return INFINITY;]. Converting the floating-point infinity to [int] is
    not defined by the language; whatever the compiler produces is some
    [int], taken here as a parameter. GCC and Clang fold the conversion to
    [INT_MAX], the x86 conversion instruction yields [INT_MIN]. *)
Variable INFINITY_int : Z.

Definition closest_vertical_obstacle (g : Map) (node : Node) : Z :=
  let '(row, col) := node in
  let dist := at_uchar (dmat g) row col in
  if dist <? 255 then dist else INFINITY_int.

(** *** The cost model *)

Definition heuristic (start end_ : Node) (mfactor : Z) : float :=
  let '(r1, c1) := start in
  let '(r2, c2) := end_ in
  let a := Double.sq (Double.of_int (r1 - r2)) in
  let b := Double.sq (Double.of_int (c1 - c2)) in
  (Double.of_int mfactor * PrimFloat.sqrt (a + b))%float.

Definition V (node start : Node) : float :=
  Double.of_int (Z.abs (node.1 - start.1)).

Definition N (current neighbor : Node) : float :=
  if (current.1 =? neighbor.1) || (current.2 =? neighbor.2)
  then 10%float else 14%float.

Definition M (g : Map) (node : Node) : float :=
  if is_wall g node then 1%float else 0%float.

Definition D (g : Map) (node : Node) : float * float :=
  let min := Double.of_int (closest_vertical_obstacle g node) in
  ((1 / (1 + min))%float, (1 / (1 + Double.sq min))%float).

(** [std::string::c_str] seen as a C string: the characters before the
    first NUL. *)
Fixpoint c_str (s : string) : string :=
  match s with
  | EmptyString => EmptyString
  | String c s' => if Ascii.eqb c "000"%char then EmptyString
                   else String c (c_str s')
  end.

(** [strcmp] on two C strings: the difference of the first pair of bytes
    that differ, with the terminating NUL counting as 0. *)
Fixpoint strcmp (a b : string) : Z :=
  match a, b with
  | EmptyString, EmptyString => 0
  | EmptyString, String d _ => - Z.of_N (N_of_ascii d)
  | String c _, EmptyString => Z.of_N (N_of_ascii c)
  | String c a', String d b' =>
      if Ascii.eqb c d then strcmp a' b'
      else Z.of_N (N_of_ascii c) - Z.of_N (N_of_ascii d)
  end.

Definition compute_cost (g : Map) (current neighbor start : Node)
    (dataset : string) : float :=
  let v := V neighbor start in
  let n := N current neighbor in
  let m := M g neighbor in
  let '(d, d2) := D g neighbor in
  if strcmp (c_str dataset) "MLS" =? 0
  then (2.5 * v + 1 * n + 50 * m + 130 * d + 0 * d2)%float
  else (0.5 * v + 1 * n + 50 * m + 150 * d + 50 * d2)%float.

(** *** PriorityQueue

    [std::priority_queue] with [greater<pair<double, Node>>]: [top] is a
    least element for [operator<] on pairs. The heap is kept here as a list
    in ascending order, so [get] takes its head. Two entries that are
    equivalent for the order carry the same node, so the node that [get]
    returns does not depend on how the heap arranges them. *)

Definition Element : Type := float * Node.

Definition Node_lt (a b : Node) : bool :=
  (a.1 <? b.1) || (negb (b.1 <? a.1) && (a.2 <? b.2)).

Definition Element_lt (a b : Element) : bool :=
  PrimFloat.ltb a.1 b.1 || (negb (PrimFloat.ltb b.1 a.1) && Node_lt a.2 b.2).

Fixpoint put (element : Node) (priority : float) (elements : list Element)
    : list Element :=
  match elements with
  | [] => [(priority, element)]
  | x :: rest =>
      if Element_lt (priority, element) x
      then (priority, element) :: x :: rest
      else x :: put element priority rest
  end.

Definition get (elements : list Element) : option (Node * list Element) :=
  match elements with
  | [] => None
  | (_, element) :: rest => Some (element, rest)
  end.

(** *** reconstruct_path

    [parents[current]] is [unordered_map::operator[]]: a missing key is
    inserted with the value-initialised node [(0, 0)]. *)

Definition index_parents (parents : gmap Node Node) (k : Node)
    : Node * gmap Node Node :=
  match parents !! k with
  | Some p => (p, parents)
  | None => ((0, 0), <[k := (0, 0)]> parents)
  end.

Fixpoint reconstruct_loop (fuel : nat) (start current : Node)
    (parents : gmap Node Node) (path : list Node)
    : option (list Node * gmap Node Node) :=
  match fuel with
  | O => None
  | S fuel' =>
      if decide (current = start) then Some (path, parents)
      else
        let '(next, parents') := index_parents parents current in
        reconstruct_loop fuel' start next parents' (path ++ [next])
  end.

Definition reconstruct_path (fuel : nat) (start goal : Node)
    (parents : gmap Node Node) : option (list Node * gmap Node Node) :=
  match reconstruct_loop fuel start goal parents [goal] with
  | Some (path, parents') => Some (rev path, parents')
  | None => None
  end.

(** *** astar_search *)

Record search := mkSearch {
  openSet : list Element;
  gscore : gmap Node float;
  closedSet : gset Node;
  parents : gmap Node Node
}.

(** [gscore[k]]: a missing key is inserted with 0.0. *)
Definition index_gscore (gs : gmap Node float) (k : Node)
    : float * gmap Node float :=
  match gs !! k with
  | Some x => (x, gs)
  | None => (0%float, <[k := 0%float]> gs)
  end.

Section Search.

Variables (graph : Map) (start goal : Node) (dataset_name : string)
          (step mfactor : Z).

(** One iteration of the loop over the neighbours of [current]. *)
Definition relax (current : Node) (st : search) (neighbor : Node) : search :=
  if decide (neighbor ∈ closedSet st) then st
  else
    let '(gcur, gs) := index_gscore (gscore st) current in
    let new_gscore :=
      (gcur + compute_cost graph current neighbor start dataset_name)%float in
    let better :=
      match gs !! neighbor with
      | None => true
      | Some old => PrimFloat.ltb new_gscore old
      end in
    if better then
      let fscore := (new_gscore + heuristic neighbor goal mfactor)%float in
      mkSearch (put neighbor fscore (openSet st))
               (<[neighbor := new_gscore]> gs)
               (closedSet st)
               (<[neighbor := current]> (parents st))
    else mkSearch (openSet st) gs (closedSet st) (parents st).

Definition expand (current : Node) (st : search) : search :=
  fold_left (relax current) (neighbors graph current step) st.

Inductive exit := GoalPopped | OpenEmpty.

(** The [while (not openSet.empty())] loop. *)
Fixpoint astar_loop (fuel : nat) (st : search) : option (exit * search) :=
  match fuel with
  | O => None
  | S fuel' =>
      match get (openSet st) with
      | None => Some (OpenEmpty, st)
      | Some (current, rest) =>
          let st' := mkSearch rest (gscore st) (closedSet st) (parents st) in
          if decide (current = goal) then Some (GoalPopped, st')
          else astar_loop fuel' (expand current st')
      end
  end.

Definition astar_init (parents0 : gmap Node Node) : search :=
  mkSearch (put start 0%float []) {[ start := 0%float ]} ∅ parents0.

(** [astar_search] returns nothing; its result is the [parents] map it
    was handed by reference. *)
Definition astar_search (fuel : nat) (parents0 : gmap Node Node)
    : option (gmap Node Node) :=
  match astar_loop fuel (astar_init parents0) with
  | Some (_, st) => Some (parents st)
  | None => None
  end.

(** The nodes whose neighbours the loop generates, in order: every popped
    node other than [goal]. *)
Fixpoint expansions (fuel : nat) (st : search) : list Node :=
  match fuel with
  | O => []
  | S fuel' =>
      match get (openSet st) with
      | None => []
      | Some (current, rest) =>
          let st' := mkSearch rest (gscore st) (closedSet st) (parents st) in
          if decide (current = goal) then []
          else current :: expansions fuel' (expand current st')
      end
  end.

(** Whether each sum [gscore[current] + compute_cost(...)] the run forms is
    at least [gscore[current]]. In IEEE arithmetic adding a cost that is
    not negative never lowers a sum, so this holds of a run unless a cost
    is negative or a NaN arises; the check replays the run and evaluates
    the comparison at every relaxation. *)
Definition relax_monotone (current : Node) (st : search) (neighbor : Node)
    : bool :=
  if decide (neighbor ∈ closedSet st) then true
  else
    let '(gcur, _) := index_gscore (gscore st) current in
    PrimFloat.leb gcur
      (gcur + compute_cost graph current neighbor start dataset_name)%float.

Fixpoint expand_monotone (current : Node) (l : list Node) (st : search)
    : bool :=
  match l with
  | [] => true
  | neighbor :: l' =>
      relax_monotone current st neighbor
      && expand_monotone current l' (relax current st neighbor)
  end.

Fixpoint sums_monotone (fuel : nat) (st : search) : bool :=
  match fuel with
  | O => true
  | S fuel' =>
      match get (openSet st) with
      | None => true
      | Some (current, rest) =>
          let st' := mkSearch rest (gscore st) (closedSet st) (parents st) in
          if decide (current = goal) then true
          else expand_monotone current (neighbors graph current step) st'
               && sums_monotone fuel' (expand current st')
      end
  end.

End Search.
End WithInfinity.

End Astar.

(** ** utils.cpp (the path projector) *)

Module Utils.

(** The integers [hi, hi-1, ..., lo], the index range of a downward loop. *)
Definition zrange_down (hi lo : Z) : list Z :=
  map (fun k => hi - Z.of_nat k) (seq 0 (Z.to_nat (hi - lo + 1))).

(** *** Painting

    The pixels a boundary node makes the painting loops write, in program
    order, as the [(i, j)] handed to [Mat::at]. *)

Definition stroke (input : Mat) (span : list Z) (col : Z) : list (Z * Z) :=
  flat_map (fun i => (i, col) :: (if col <? cols input then [(i, col + 1)] else []))
           span.

Definition segment_above_boundary_writes (input : Mat) (boundary : list Node)
    : list (Z * Z) :=
  flat_map (fun '(row, col) => stroke input (zrange row (rows input)) col)
           boundary.

Definition segment_below_boundary_writes (input : Mat) (boundary : list Node)
    : list (Z * Z) :=
  flat_map (fun '(row, col) => stroke input (zrange_down row 0) col) boundary.

Definition paint (input : Mat) (writes : list (Z * Z)) : Mat :=
  fold_left (fun m '(i, j) => set_uchar m i j 255) writes input.

Definition segment_above_boundary (input : Mat) (boundary : list Node) : Mat :=
  paint input (segment_above_boundary_writes input boundary).

Definition segment_below_boundary (input : Mat) (boundary : list Node) : Mat :=
  paint input (segment_below_boundary_writes input boundary).

(** *** Extreme rows of a boundary

    [lowest_pos] and [highest_pos] are declared without an initial value
    and assigned in the first iteration; [uninit] is whatever the variable
    holds when the loop body never runs. *)

Definition lowest_boundary_pos (uninit : Z) (boundary : list Node) : Z :=
  fst (fold_left
         (fun '(lowest_pos, i) '(row, _) =>
            (if (i =? 0)%nat then row
             else if row >? lowest_pos then row else lowest_pos, S i))
         boundary (uninit, O)).

Definition highest_boundary_pos (uninit : Z) (boundary : list Node) : Z :=
  fst (fold_left
         (fun '(highest_pos, i) '(row, _) =>
            (if (i =? 0)%nat then row
             else if row <? highest_pos then row else highest_pos, S i))
         boundary (uninit, O)).

(** *** Extreme ink rows of an image *)

Definition row_has_ink (input : Mat) (js : list Z) (i : Z) : bool :=
  existsb (fun j => at_uchar input i j =? 0) js.

Definition highest_pixel_row (input : Mat) : Z :=
  match find (row_has_ink input (zrange 0 (cols input)))
             (zrange 0 (rows input)) with
  | Some i => i
  | None => rows input
  end.

Definition lowest_pixel_row (input : Mat) : Z :=
  match find (row_has_ink input (zrange_down (cols input - 1) 0))
             (zrange_down (rows input - 1) 0) with
  | Some i => i
  | None => 0
  end.

(** *** Cropping

    [Mat(input, Rect(x, y, width, height))] asserts that the rectangle lies
    inside the image and throws otherwise ([None]). [copyTo] of a rectangle
    without pixels leaves the destination an empty [Mat]. *)

Definition extract_bounding_box (input : Mat) (x y width height : Z)
    : option Mat :=
  if (0 <=? x) && (0 <=? width) && (x + width <=? cols input)
     && (0 <=? y) && (0 <=? height) && (y + height <=? rows input)
  then
    if (width =? 0) || (height =? 0) then Some (mkMat 0 0 [])
    else Some (mkMat height width
                 (flat_map (fun i => map (at_uchar input i) (zrange x (x + width)))
                           (zrange y (y + height))))
  else None.

(** [output * 255] with the saturating cast to [uchar]. *)
Definition times255 (m : Mat) : Mat :=
  mkMat (rows m) (cols m) (map (fun v => Z.min 255 (Z.max 0 (v * 255))) (data m)).

(** *** segment_text_line

    The result is the image handed to [imwrite]; the file name
    [out_dir + "line_" + to_string(line_id) + ".jpg"] plays no part in the
    pixels and is left out. [None] is the exception of an invalid crop. *)

(** The overload taking a lower and an upper boundary. *)
Definition segment_text_line2 (uninit_hi uninit_lo : Z) (input : Mat)
    (lower upper : list Node) : option Mat :=
  let output := input in
  let highest_pos := highest_boundary_pos uninit_hi upper in
  let lowest_pos := lowest_boundary_pos uninit_lo lower in
  let output := segment_above_boundary output lower in
  let output := segment_below_boundary output upper in
  times255 <$> extract_bounding_box output 0 highest_pos (cols input)
                                    (lowest_pos - highest_pos).

(** The overload taking one boundary and its role. *)
Definition segment_text_line1 (uninit : Z) (input : Mat)
    (boundary_is_lower : bool) (boundary : list Node) : option Mat :=
  let output := input in
  if boundary_is_lower then
    let lowest_pos := lowest_boundary_pos uninit boundary in
    let upper_bound := highest_pixel_row output in
    let output := segment_above_boundary output boundary in
    times255 <$> extract_bounding_box output 0 upper_bound (cols input)
                                      (lowest_pos - upper_bound)
  else
    let highest_pos := highest_boundary_pos uninit boundary in
    let lower_bound := lowest_pixel_row output in
    let output := segment_below_boundary output boundary in
    times255 <$> extract_bounding_box output 0 highest_pos (cols input)
                                      (lower_bound - highest_pos).

(** *** draw_path

    The path is drawn into the map in place, in ink, two pixels wide; the
    result is the map after the loop (the file written is that map times
    255). *)

Definition draw_path_writes (graph : Mat) (path : list Node) : list (Z * Z) :=
  flat_map (fun '(row, col) =>
              (row, col) :: (if col <? cols graph then [(row, col + 1)] else []))
           path.

Definition draw_path (graph : Mat) (path : list Node) : Mat :=
  fold_left (fun m '(i, j) => set_uchar m i j 0) (draw_path_writes graph path)
            graph.

(** *** segment_line *)

Definition segment_line (input : Mat) (path : list Node) : Mat :=
  let output := input in
  paint output
        (flat_map (fun '(row, col) =>
                     flat_map (fun i => (i, col) :: (if col <? cols output
                                                     then [(i, col + 1)] else []))
                              (zrange row (rows input)))
                  path).

(** *** Strings

    [std::string::find] from position 0: the first position at which the
    needle occurs, [None] for [npos]. *)

Fixpoint string_find (needle haystack : string) : option nat :=
  if String.prefix needle haystack then Some O
  else match haystack with
       | EmptyString => None
       | String _ rest => S <$> string_find needle rest
       end.

Fixpoint string_take (n : nat) (s : string) : string :=
  match n, s with
  | S n', String c s' => String c (string_take n' s')
  | _, _ => EmptyString
  end.

Fixpoint string_drop (n : nat) (s : string) : string :=
  match n, s with
  | S n', String _ s' => string_drop n' s'
  | _, _ => s
  end.

(** [str.replace(pos, len, repl)] for [pos <= str.length()]. *)
Definition string_replace (str : string) (pos len : nat) (repl : string)
    : string :=
  (string_take pos str ++ repl ++ string_drop (pos + len) str)%string.

(** [strreplace] changes [str] in place and returns whether it did; the
    result is the flag with the string after the call. *)
Definition strreplace (str rem repl : string) : bool * string :=
  match string_find rem str with
  | None => (false, str)
  | Some start_pos =>
      (true, string_replace str start_pos (String.length rem) repl)
  end.

Definition infer_dataset (filename : string) : string :=
  let mls := string_find "mls" filename in
  let sg := string_find "saintgall" filename in
  match mls, sg with
  | Some _, _ => "mls"
  | None, Some _ => "saintgall"
  | None, None => "NULL"
  end%string.

(** *** count_occurences

    [(uchar) num] keeps the low eight bits of [num]. *)

Definition count_occurences (input : Mat) (num : Z) : Z :=
  fold_left
    (fun count i =>
       fold_left
         (fun count j =>
            if at_uchar input i j =? num mod 256 then count + 1 else count)
         (zrange 0 (cols input)) count)
    (zrange 0 (rows input)) 0.

(** *** select_best_assignments

    [std::max_element]: the position of the first element that no later
    element exceeds; on an empty range it is the end position 0. *)

Definition max_element (l : list float) : nat :=
  match l with
  | [] => O
  | x :: rest =>
      (fold_left
         (fun '(largest, value, i) y =>
            if PrimFloat.ltb value y then (i, y, S i) else (largest, value, S i))
         rest (O, x, 1%nat)).1.1
  end.

(** The three statistics at the position of the best hit rate. Reading
    [*max] on an empty [hitrate], or one of the other vectors past its
    end, is undefined: [None]. [lines[pos]] is read for the report that is
    printed; the report itself is left out. *)
Definition select_best_assignments
    (hitrate line_detection_GT line_detection_R : list float)
    (lines : list string) (groudtruth : string) : option (list float) :=
  let pos := max_element hitrate in
  hit_rate ← hitrate !! pos;
  line_det_GT ← line_detection_GT !! pos;
  line_det_R ← line_detection_R !! pos;
  detected ← lines !! pos;
  Some [hit_rate; line_det_GT; line_det_R].

End Utils.

(** * Vocabulary of the properties and the inputs of the examples *)

Module Props.
Import Astar Utils.

(** ** Boundaries and images *)

(** The row extremes of a boundary, as the specification words them. *)
Definition is_max_row (B : list Node) (m : Z) : Prop :=
  (exists n, n ∈ B /\ n.1 = m) /\ (forall n, n ∈ B -> n.1 <= m).

Definition is_min_row (B : list Node) (m : Z) : Prop :=
  (exists n, n ∈ B /\ n.1 = m) /\ (forall n, n ∈ B -> m <= n.1).

(** The topmost ink row of an image: the first row holding a 0 pixel, or
    [rows] when there is none. *)
Definition is_topmost_ink_row (input : Mat) (t : Z) : Prop :=
  (forall i j, 0 <= i < t -> 0 <= j < cols input -> at_uchar input i j <> 0) /\
  (t = rows input \/
   (0 <= t < rows input /\
    exists j, 0 <= j < cols input /\ at_uchar input t j = 0)).

(** ** The step cost as the specification words it

    The two definitions below follow the text of the specification and
    not the code; [compute_cost] is compared with them. The clearance of a
    node is its distance-map entry, and +infinity when the entry is the
    sentinel 255; the dataset tag is the specification's two-valued
    switch. *)

Definition spec_vertical_clearance (g : Map) (n : Node) : float :=
  let entry := at_uchar (dmat g) n.1 n.2 in
  if entry =? 255 then infinity else Double.of_int entry.

Definition spec_step_cost (g : Map) (u v s : Node) (mls : bool) : float :=
  let V := Double.of_int (Z.abs (v.1 - s.1)) in
  let N := if (u.1 =? v.1) || (u.2 =? v.2) then 10%float else 14%float in
  let M := if at_uchar (grid g) v.1 v.2 =? 0 then 1%float else 0%float in
  let clearance := spec_vertical_clearance g v in
  let D := (1 / (1 + clearance))%float in
  let D2 := (1 / (1 + clearance * clearance))%float in
  if mls then (2.5 * V + 1 * N + 50 * M + 130 * D + 0 * D2)%float
  else (0.5 * V + 1 * N + 50 * M + 150 * D + 50 * D2)%float.

(** ** Strings *)

(** Whether a string is free of NUL characters. *)
Fixpoint no_nul (s : string) : bool :=
  match s with
  | EmptyString => true
  | String c s' => negb (Ascii.eqb c "000"%char) && no_nul s'
  end.

(** ** Links between nodes *)

(** The value [parents[n]] reads: the entry, or [(0, 0)] when there is
    none. *)
Definition parent_at (P : gmap Node Node) (n : Node) : Node :=
  (index_parents P n).1.

(** The nodes [goal], [parents[goal]], [parents[parents[goal]]], ... up to
    the [k]-th. *)
Definition parent_chain (P : gmap Node Node) (goal : Node) (k : nat)
    : list Node :=
  map (fun i => Nat.iter i (parent_at P) goal) (seq 0 (S k)).

Section Links.

Variables (graph : Map) (start : Node) (step : Z).

(** [linked P G n]: following [P] from [n] leads to [start] over links
    that each join a node to one of its grid neighbours, with scores in
    [G] that do not increase on the way back. *)
Inductive linked (P : gmap Node Node) (G : gmap Node float) : Node -> Prop :=
| linked_start (g : float) :
    G !! start = Some g -> Double.le g g -> linked P G start
| linked_step (n p : Node) (gn gp : float) :
    n <> start -> P !! n = Some p -> n ∈ neighbors graph p step ->
    G !! n = Some gn -> G !! p = Some gp -> Double.le gp gn ->
    linked P G p -> linked P G n.

(** [route P n l]: [l] is the list of nodes from [start] to [n] along the
    links of [P]. *)
Inductive route (P : gmap Node Node) : Node -> list Node -> Prop :=
| route_start : route P start [start]
| route_step (n p : Node) (l : list Node) :
    n <> start -> P !! n = Some p -> n ∈ neighbors graph p step ->
    route P p l -> route P n (l ++ [n]).

(** The invariant of the search loop: every scored node is linked, and
    every queued node is scored. *)
Definition inv (st : search) : Prop :=
  (forall n, is_Some (gscore st !! n) -> linked (parents st) (gscore st) n) /\
  (forall e, e ∈ openSet st -> is_Some (gscore st !! e.2)).

End Links.

(** ** Images and strokes *)

(** An image whose buffer holds exactly [rows * cols] pixels. *)
Definition well_formed (m : Mat) : Prop :=
  0 <= rows m /\ 0 <= cols m /\ Z.of_nat (length (data m)) = rows m * cols m.

(** Pixel [(i, j)] lies in the image. *)
Definition inside (m : Mat) (i j : Z) : Prop :=
  0 <= i < rows m /\ 0 <= j < cols m.

(** The writes [ws], all of the value [v], applied in order. *)
Definition write_all (v : Z) (m : Mat) (ws : list (Z * Z)) : Mat :=
  fold_left (fun m '(i, j) => set_uchar m i j v) ws m.

(** Pixel [(i, j)] lies on the two-pixel stroke of [B], or below it, or
    above it; [clear_of_last_column]: the nodes of [B] are in bounds and
    none is in the last column. *)
Definition at_or_below (B : list Node) (i j : Z) : Prop :=
  exists r c, (r, c) ∈ B /\ r <= i /\ (j = c \/ j = c + 1).
Definition at_or_above (B : list Node) (i j : Z) : Prop :=
  exists r c, (r, c) ∈ B /\ i <= r /\ (j = c \/ j = c + 1).
Definition on_stroke (B : list Node) (i j : Z) : Prop :=
  exists c, (i, c) ∈ B /\ (j = c \/ j = c + 1).
Definition clear_of_last_column (m : Mat) (B : list Node) : Prop :=
  forall r c, (r, c) ∈ B -> 0 <= r < rows m /\ 0 <= c /\ c + 1 < cols m.

(** The bottommost ink row as [lowest_pixel_row] reports it, and pages
    without ink. *)
Definition is_bottommost_ink_row (input : Mat) (b : Z) : Prop :=
  (forall i j, b < i < rows input -> 0 <= j < cols input ->
               at_uchar input i j <> 0) /\
  (b = 0 \/
   (0 < b < rows input /\
    exists j, 0 <= j < cols input /\ at_uchar input b j = 0)).

Definition no_ink (input : Mat) : Prop :=
  forall i j, inside input i j -> at_uchar input i j <> 0.

(** The nested counting loops over a grid of indices. *)
Definition count_grid (p : Z -> Z -> bool) (rs cs : list Z) (c : Z) : Z :=
  fold_left (fun count i =>
               fold_left (fun count j => if p i j then count + 1 else count)
                         cs count)
            rs c.

(** ** Occurrences in strings *)

(** [needle] occurs in [s] at position [n]; [needle] occurs in [s]. *)
Definition occurs_at (needle s : string) (n : nat) : Prop :=
  exists pre post, s = (pre ++ needle ++ post)%string /\ String.length pre = n.

Definition contains (needle s : string) : Prop := exists k, occurs_at needle s k.

(** ** Queues and maxima *)

(** A queue in ascending order: no entry is below an entry before it. *)
Inductive ascending : list Element -> Prop :=
| ascending_nil : ascending []
| ascending_cons (e : Element) (l : list Element) :
    (forall x, x ∈ l -> Element_lt x e = false) -> ascending l ->
    ascending (e :: l).

(** The state of the loop of [max_element] after the elements [seen]. *)
Definition max_state (seen : list float) (st : nat * float * nat) : Prop :=
  let '(largest, value, i) := st in
  i = length seen /\ seen !! largest = Some value /\
  (forall y, y ∈ seen -> Double.le y value) /\
  (forall k y, (k < largest)%nat -> seen !! k = Some y -> Double.lt y value).

Section Tables.

Variables (graph : Map) (goal : Node) (step : Z).

(** [step_links P P']: every entry of [P'] is an entry of [P] or links a
    node to one it is a grid neighbour of, and [P'] has an entry wherever
    [P] has one. *)
Definition step_links (P P' : gmap Node Node) : Prop :=
  (forall n p, P' !! n = Some p ->
               P !! n = Some p \/ n ∈ neighbors graph p step) /\
  (forall n, is_Some (P !! n) -> is_Some (P' !! n)).

(** Once the goal has been given a predecessor it waits in the queue. *)
Definition goal_pending (parents0 : gmap Node Node) (st : search) : Prop :=
  parents st !! goal <> parents0 !! goal ->
  exists pr, (pr, goal) ∈ openSet st.

End Tables.

(** ** Inputs of the examples *)

(** A three-by-three page, all ink, and a level boundary through its
    middle row. *)
Definition page3 : Mat := mkMat 3 3 [0; 0; 0; 0; 0; 0; 0; 0; 0].
Definition level3 : list Node := [(1, 0); (1, 1); (1, 2)].

(** A five-by-four page with two ink pixels, and a boundary that descends
    one row per column. *)
Definition page5 : Mat :=
  mkMat 5 4 [255; 255; 255; 255;
             255;   0; 255; 255;
             255; 255; 255;   0;
             255; 255; 255; 255;
             255; 255; 255; 255].

Definition slope5 : list Node := [(1, 0); (2, 1); (3, 2)].

(** A one-pixel page without ink: its distance map is the sentinel. *)
Definition blank1 : Map := mkMap (mkMat 1 1 [255]) (mkMat 1 1 [255]).

(** A 2 x 3 grid whose upper row is ink, with its distance map. *)
Definition inked2 : Map :=
  mkMap (mkMat 2 3 [0; 0; 0; 255; 255; 255]) (mkMat 2 3 [0; 0; 0; 1; 1; 1]).

(** A 3 x 4 grid with ink in every column, with its distance map. *)
Definition inked3 : Map :=
  mkMap (mkMat 3 4 [255;   0; 0; 255;
                    255; 255; 0; 255;
                      0; 255; 0;   0])
        (mkMat 3 4 [2; 0; 0; 2;
                    1; 1; 0; 1;
                    0; 2; 0; 0]).

(** A 2 x 2 page without ink, and one whose top-left pixel is ink. *)
Definition blank2 : Mat := mkMat 2 2 [255; 255; 255; 255].
Definition dot2 : Mat := mkMat 2 2 [0; 255; 255; 255].

(** A parents map that links [(1, 2)] to [(1, 0)] over [(1, 1)]. *)
Definition chain3 : gmap Node Node := {[ (1, 2) := (1, 1); (1, 1) := (1, 0) ]}.

End Props.

(** * Properties of the comparisons of doubles *)

Module DoubleFacts.
Import Double.

(** The comparisons of doubles form a preorder on the values that are not
    NaN. The facts come from the specification of the primitive
    comparisons by [SFcompare]. *)

Ltac sf_cases :=
  repeat match goal with
         | |- context [Z.compare ?a ?b] => destruct (Z.compare_spec a b)
         | |- context [Pos.compare_cont Eq ?a ?b] =>
             change (Pos.compare_cont Eq a b) with (Pos.compare a b);
             destruct (Pos.compare_spec a b)
         | H : context [Z.compare ?a ?b] |- _ => destruct (Z.compare_spec a b)
         | H : context [Pos.compare_cont Eq ?a ?b] |- _ =>
             change (Pos.compare_cont Eq a b) with (Pos.compare a b) in H;
             destruct (Pos.compare_spec a b)
         end;
  cbn in *; try discriminate; try reflexivity; try lia.

Lemma SFleb_trans (x y z : spec_float) :
  SFleb x y = true -> SFleb y z = true -> SFleb x z = true.
Proof.
  unfold SFleb, SFcompare.
  destruct x as [[]|[]| |[] mx ex], y as [[]|[]| |[] my ey],
           z as [[]|[]| |[] mz ez];
    cbn; try discriminate; try reflexivity; intros H1 H2; sf_cases.
Qed.

Lemma SFcompare_antisym (x y : spec_float) :
  SFcompare y x = match SFcompare x y with
                  | Some c => Some (CompOpp c)
                  | None => None
                  end.
Proof.
  unfold SFcompare.
  destruct x as [[]|[]| |[] mx ex], y as [[]|[]| |[] my ey];
    cbn; try reflexivity;
    rewrite (Z.compare_antisym ex ey); destruct (ex ?= ey);
    cbn; try reflexivity;
    change (Pos.compare_cont Eq my mx) with (Pos.compare my mx);
    change (Pos.compare_cont Eq mx my) with (Pos.compare mx my);
    rewrite (Pos.compare_antisym mx my); destruct (mx ?= my)%positive;
    reflexivity.
Qed.

Lemma SFleb_refl_l (x y : spec_float) : SFleb x y = true -> SFleb x x = true.
Proof.
  unfold SFleb, SFcompare.
  destruct x as [[]|[]| |[] mx ex], y as [[]|[]| |[] my ey];
    cbn; try discriminate; try reflexivity;
    intros _; rewrite Z.compare_refl;
    change (Pos.compare_cont Eq mx mx) with (Pos.compare mx mx);
    rewrite Pos.compare_refl; reflexivity.
Qed.

Lemma le_trans (a b c : float) : le a b -> le b c -> le a c.
Proof. unfold le. rewrite !leb_spec. apply SFleb_trans. Qed.

Lemma le_refl_l (a b : float) : le a b -> le a a.
Proof. unfold le. rewrite !leb_spec. apply SFleb_refl_l. Qed.

Lemma lt_le (a b : float) : lt a b -> le a b.
Proof.
  unfold lt, le. rewrite ltb_spec, leb_spec. unfold SFltb, SFleb.
  by destruct (SFcompare _ _) as [[]|].
Qed.

Lemma le_not_lt (a b : float) : le a b -> lt b a -> False.
Proof.
  unfold lt, le. rewrite ltb_spec, leb_spec. unfold SFltb, SFleb.
  rewrite (SFcompare_antisym (Prim2SF a) (Prim2SF b)).
  by destruct (SFcompare _ _) as [[]|].
Qed.

End DoubleFacts.

(** * Properties of the path projector *)

Module UtilsFacts.
Import Utils Props.

Lemma elem_of_zrange lo hi x : x ∈ zrange lo hi <-> lo <= x < hi.
Proof.
  unfold zrange. rewrite list_elem_of_fmap. split.
  - intros (k & -> & Hk). apply elem_of_seq in Hk. lia.
  - intros H. exists (Z.to_nat (x - lo)). split; [lia|].
    apply elem_of_seq. lia.
Qed.

Lemma zrange_cons lo hi : lo < hi -> zrange lo hi = lo :: zrange (lo + 1) hi.
Proof.
  intros H. unfold zrange.
  replace (Z.to_nat (hi - lo)) with (S (Z.to_nat (hi - (lo + 1)))) by lia.
  cbn [seq map]. f_equal; [lia|].
  rewrite <- seq_shift, map_map. apply map_ext. intros k. lia.
Qed.

Lemma zrange_nil lo hi : hi <= lo -> zrange lo hi = [].
Proof.
  intros H. unfold zrange. replace (Z.to_nat (hi - lo)) with O by lia. done.
Qed.

Lemma fold_left_max_spec (l : list Z) (a : Z) :
  a <= fold_left Z.max l a /\
  (forall x, x ∈ l -> x <= fold_left Z.max l a) /\
  (fold_left Z.max l a = a \/ fold_left Z.max l a ∈ l).
Proof.
  revert a. induction l as [|y l IH]; intros a; cbn [fold_left].
  - split; [lia|]. split; [|by left]. intros x Hx. by apply elem_of_nil in Hx.
  - destruct (IH (Z.max a y)) as (H1 & H2 & H3). split; [lia|]. split.
    + intros x Hx. apply elem_of_cons in Hx as [->|Hx]; [lia|by apply H2].
    + destruct H3 as [H3|H3].
      * rewrite H3. destruct (Z.max_spec a y) as [[_ ->]|[_ ->]].
        -- right. left.
        -- by left.
      * right. by right.
Qed.

Lemma fold_left_min_spec (l : list Z) (a : Z) :
  fold_left Z.min l a <= a /\
  (forall x, x ∈ l -> fold_left Z.min l a <= x) /\
  (fold_left Z.min l a = a \/ fold_left Z.min l a ∈ l).
Proof.
  revert a. induction l as [|y l IH]; intros a; cbn [fold_left].
  - split; [lia|]. split; [|by left]. intros x Hx. by apply elem_of_nil in Hx.
  - destruct (IH (Z.min a y)) as (H1 & H2 & H3). split; [lia|]. split.
    + intros x Hx. apply elem_of_cons in Hx as [->|Hx]; [lia|by apply H2].
    + destruct H3 as [H3|H3].
      * rewrite H3. destruct (Z.min_spec a y) as [[_ ->]|[_ ->]].
        -- by left.
        -- right. left.
      * right. by right.
Qed.

(** After the first iteration the loop of [lowest_boundary_pos] is a
    running maximum. *)
Lemma lowest_loop_tail (l : list Node) (acc : Z) (i : nat) :
  fst (fold_left
         (fun '(lowest_pos, i) '(row, _) =>
            (if (i =? 0)%nat then row
             else if row >? lowest_pos then row else lowest_pos, S i))
         l (acc, S i))
  = fold_left Z.max (map fst l) acc.
Proof.
  revert acc i. induction l as [|[r c] l IH]; intros acc i; [done|].
  cbn [fold_left map fst]. cbn [Nat.eqb]. rewrite IH. f_equal.
  destruct (Z.gtb_spec r acc); lia.
Qed.

Lemma highest_loop_tail (l : list Node) (acc : Z) (i : nat) :
  fst (fold_left
         (fun '(highest_pos, i) '(row, _) =>
            (if (i =? 0)%nat then row
             else if row <? highest_pos then row else highest_pos, S i))
         l (acc, S i))
  = fold_left Z.min (map fst l) acc.
Proof.
  revert acc i. induction l as [|[r c] l IH]; intros acc i; [done|].
  cbn [fold_left map fst]. cbn [Nat.eqb]. rewrite IH. f_equal.
  destruct (Z.ltb_spec r acc); lia.
Qed.

Lemma lowest_boundary_pos_max (uninit : Z) (B : list Node) :
  B <> [] -> is_max_row B (lowest_boundary_pos uninit B).
Proof.
  destruct B as [|[r c] l]; [done|]. intros _.
  unfold lowest_boundary_pos. cbn [fold_left Nat.eqb]. rewrite lowest_loop_tail.
  destruct (fold_left_max_spec (map fst l) r) as (H1 & H2 & H3). split.
  - destruct H3 as [->|H3].
    + exists (r, c). split; [left|done].
    + apply list_elem_of_fmap in H3 as (n & Hn & Hin).
      exists n. split; [by right|done].
  - intros n Hn. apply elem_of_cons in Hn as [->|Hn]; [done|].
    apply H2. apply list_elem_of_fmap. by exists n.
Qed.

Lemma highest_boundary_pos_min (uninit : Z) (B : list Node) :
  B <> [] -> is_min_row B (highest_boundary_pos uninit B).
Proof.
  destruct B as [|[r c] l]; [done|]. intros _.
  unfold highest_boundary_pos. cbn [fold_left Nat.eqb]. rewrite highest_loop_tail.
  destruct (fold_left_min_spec (map fst l) r) as (H1 & H2 & H3). split.
  - destruct H3 as [->|H3].
    + exists (r, c). split; [left|done].
    + apply list_elem_of_fmap in H3 as (n & Hn & Hin).
      exists n. split; [by right|done].
  - intros n Hn. apply elem_of_cons in Hn as [->|Hn]; [done|].
    apply H2. apply list_elem_of_fmap. by exists n.
Qed.

(** With no node to iterate over, both functions hand back the value their
    local variable happened to hold. *)
Lemma lowest_boundary_pos_nil (uninit : Z) : lowest_boundary_pos uninit [] = uninit.
Proof. reflexivity. Qed.

Lemma highest_boundary_pos_nil (uninit : Z) : highest_boundary_pos uninit [] = uninit.
Proof. reflexivity. Qed.

Lemma find_zrange_first (f : Z -> bool) (lo hi t : Z) :
  find f (zrange lo hi) = Some t ->
  lo <= t < hi /\ f t = true /\ forall i, lo <= i < t -> f i = false.
Proof.
  remember (Z.to_nat (hi - lo)) as n eqn:Hn. revert lo Hn.
  induction n as [|n IH]; intros lo Hn.
  - rewrite zrange_nil by lia. discriminate.
  - rewrite zrange_cons by lia. cbn [find]. destruct (f lo) eqn:Hf.
    + intros [= <-]. repeat split; [lia|lia|done|lia].
    + intros H. apply IH in H as (H1 & H2 & H3); [|lia].
      repeat split; [lia|lia|done|]. intros i Hi.
      destruct (decide (i = lo)) as [->|]; [done|apply H3; lia].
Qed.

Lemma row_has_ink_true (input : Mat) (i : Z) :
  row_has_ink input (zrange 0 (cols input)) i = true <->
  exists j, 0 <= j < cols input /\ at_uchar input i j = 0.
Proof.
  unfold row_has_ink. rewrite existsb_exists. split.
  - intros (j & Hj & Hz). exists j. split; [|lia].
    apply list_elem_of_In, elem_of_zrange in Hj. lia.
  - intros (j & Hj & Hz). exists j. split; [|lia].
    apply list_elem_of_In, elem_of_zrange. lia.
Qed.

Lemma row_has_ink_false (input : Mat) (i j : Z) :
  row_has_ink input (zrange 0 (cols input)) i = false ->
  0 <= j < cols input -> at_uchar input i j <> 0.
Proof.
  intros Hf Hj Hz.
  assert (row_has_ink input (zrange 0 (cols input)) i = true) as Ht
    by (apply row_has_ink_true; eauto).
  congruence.
Qed.

(** [highest_pixel_row] finds the topmost ink row. *)
Lemma highest_pixel_row_topmost (input : Mat) :
  is_topmost_ink_row input (highest_pixel_row input).
Proof.
  unfold highest_pixel_row, is_topmost_ink_row.
  destruct (find _ (zrange 0 (rows input))) as [t|] eqn:Hfind.
  - apply find_zrange_first in Hfind as (H1 & H2 & H3). split.
    + intros i j Hi Hj. eapply row_has_ink_false; [apply H3; lia|done].
    + right. split; [done|]. by apply row_has_ink_true.
  - split; [|by left]. intros i j Hi Hj.
    eapply row_has_ink_false; [|done].
    eapply find_none; [exact Hfind|].
    apply list_elem_of_In, elem_of_zrange. lia.
Qed.

(** Painting changes pixels only: the shape of the image stays. *)
Lemma paint_shape (writes : list (Z * Z)) (m : Mat) :
  rows (paint m writes) = rows m /\ cols (paint m writes) = cols m.
Proof.
  unfold paint. revert m. induction writes as [|[i j] l IH]; intros m; [done|].
  cbn [fold_left]. destruct (IH (set_uchar m i j 255)) as [-> ->].
  unfold set_uchar. by destruct (offset m i j <? 0).
Qed.

(** A valid crop with pixels has the requested shape. *)
Lemma extract_bounding_box_shape (input : Mat) (x y width height : Z) :
  0 <= x -> 0 <= y -> 0 < width -> 0 < height ->
  x + width <= cols input -> y + height <= rows input ->
  exists out, extract_bounding_box input x y width height = Some out /\
              rows out = height /\ cols out = width.
Proof.
  intros. unfold extract_bounding_box.
  repeat match goal with
         | |- context [?a <=? ?b] => destruct (Z.leb_spec a b); [|lia]
         end.
  cbn [andb]. destruct (Z.eqb_spec width 0); [lia|].
  destruct (Z.eqb_spec height 0); [lia|]. cbn [orb]. eauto.
Qed.

(** Every write of the painting loops stems from a boundary node: it sits
    in the node's column or the next one, at a row the loop runs over. *)
Lemma stroke_writes (input : Mat) (span : list Z) (col i j : Z) :
  (i, j) ∈ stroke input span col ->
  i ∈ span /\ (j = col \/ (j = col + 1 /\ col < cols input)).
Proof.
  unfold stroke. rewrite list_elem_of_In, in_flat_map.
  intros (k & Hk & Hin). apply list_elem_of_In in Hk.
  destruct Hin as [[= -> ->]|Hin]; [by auto|].
  destruct (Z.ltb_spec col (cols input)); [|done].
  destruct Hin as [[= -> ->]|[]]. auto.
Qed.

Lemma segment_above_boundary_writes_from (input : Mat) (B : list Node) (i j : Z) :
  (i, j) ∈ segment_above_boundary_writes input B ->
  exists r c, (r, c) ∈ B /\ r <= i < rows input /\
              (j = c \/ (j = c + 1 /\ c < cols input)).
Proof.
  unfold segment_above_boundary_writes. rewrite list_elem_of_In, in_flat_map.
  intros ([r c] & Hn & Hin). apply list_elem_of_In in Hn, Hin.
  apply stroke_writes in Hin as [Hi Hj]. apply elem_of_zrange in Hi.
  exists r, c. auto.
Qed.

(** A node in the last column makes the downward painter write one
    column past the image, whatever the image. *)
Lemma segment_above_boundary_writes_past (input : Mat) (B : list Node) (r : Z) :
  (r, cols input - 1) ∈ B -> r < rows input ->
  (r, cols input) ∈ segment_above_boundary_writes input B.
Proof.
  intros HB Hr. unfold segment_above_boundary_writes.
  rewrite list_elem_of_In, in_flat_map.
  exists (r, cols input - 1). split; [by apply list_elem_of_In|].
  unfold stroke. rewrite in_flat_map. exists r. split.
  - apply list_elem_of_In, elem_of_zrange. lia.
  - destruct (Z.ltb_spec (cols input - 1) (cols input)); [|lia].
    right. left. f_equal. lia.
Qed.

(** C4 (as the code behaves): the guard of the second write is
    [col < input.cols], not [col + 1 < input.cols]. For the boundary node
    [(1, 2)] in the last column of a 3-column image both painters write at
    column 3, outside the image. In the row-major buffer the write at
    [(1, 3)] is pixel [(2, 0)]: painting upward from row 1 whitens a pixel
    of row 2. *)
Theorem last_column_stroke_leaves_image :
  segment_above_boundary_writes page3 level3
    = [(1, 0); (1, 1); (2, 0); (2, 1);
       (1, 1); (1, 2); (2, 1); (2, 2);
       (1, 2); (1, 3); (2, 2); (2, 3)] /\
  segment_below_boundary_writes page3 level3
    = [(1, 0); (1, 1); (0, 0); (0, 1);
       (1, 1); (1, 2); (0, 1); (0, 2);
       (1, 2); (1, 3); (0, 2); (0, 3)] /\
  cols page3 = 3 /\
  segment_below_boundary page3 level3
    = mkMat 3 3 [255; 255; 255; 255; 255; 255; 255; 0; 0].
Proof. vm_compute. done. Qed.




End UtilsFacts.

(** * Properties of the cost model and of the planner *)

Module AstarFacts.
Import Astar Props.

(** ** The dataset switch *)

Lemma c_str_no_nul (s : string) : no_nul (c_str s) = true.
Proof.
  induction s as [|c s IH]; [done|]. cbn [c_str].
  destruct (Ascii.eqb c "000"%char) eqn:Hc; [done|].
  cbn [no_nul]. by rewrite Hc, IH.
Qed.

Lemma N_of_ascii_inj (c d : ascii) : N_of_ascii c = N_of_ascii d -> c = d.
Proof.
  intros H. rewrite <- (ascii_N_embedding c), <- (ascii_N_embedding d).
  by rewrite H.
Qed.

Lemma strcmp_zero (a b : string) :
  no_nul a = true -> no_nul b = true -> (strcmp a b = 0 <-> a = b).
Proof.
  revert b. induction a as [|c a IH]; intros [|d b] Ha Hb; cbn [strcmp].
  - done.
  - cbn [no_nul] in Hb. apply andb_true_iff in Hb as [Hd _].
    split; [|done]. intros H.
    assert (d = "000"%char) as -> by (apply N_of_ascii_inj; cbn; lia). done.
  - cbn [no_nul] in Ha. apply andb_true_iff in Ha as [Hc _].
    split; [|done]. intros H.
    assert (c = "000"%char) as -> by (apply N_of_ascii_inj; cbn; lia). done.
  - cbn [no_nul] in Ha, Hb.
    apply andb_true_iff in Ha as [_ Ha]. apply andb_true_iff in Hb as [_ Hb].
    destruct (Ascii.eqb c d) eqn:Hcd.
    + apply Ascii.eqb_eq in Hcd as ->. rewrite (IH b Ha Hb).
      split; [by intros ->|by intros [= ->]].
    + apply Ascii.eqb_neq in Hcd. split.
      * intros H. destruct Hcd. apply N_of_ascii_inj. lia.
      * by intros [= -> ->].
Qed.

Lemma strcmp_MLS (dataset : string) :
  (strcmp (c_str dataset) "MLS" =? 0) = bool_decide (c_str dataset = "MLS"%string).
Proof.
  destruct (Z.eqb_spec (strcmp (c_str dataset) "MLS") 0) as [H|H].
  - apply strcmp_zero in H; [|apply c_str_no_nul|done].
    by rewrite bool_decide_eq_true_2.
  - rewrite bool_decide_eq_false_2; [done|]. intros Heq. apply H.
    apply strcmp_zero; [apply c_str_no_nul|done|done].
Qed.

(** C5 (as the code behaves): at every neighbour whose distance-map entry
    is below the sentinel, [compute_cost] is the weighted sum of the
    specification, with the "MLS" weights exactly when the tag, read as a C
    string, is "MLS". At a sentinel entry the clearance of the
    specification is +infinity, so that [D] and [D2] are 0 and a step on
    the one-pixel page [blank1] costs 10; the code computes the two terms
    from the [int] that [closest_vertical_obstacle] returned, and the step
    costs 10.00000007 (10.00000006 with the "MLS" weights) when that [int]
    is [INT_MAX] and 9.99999993 (9.99999994) when it is [INT_MIN]. *)
Theorem compute_cost_off_spec_at_sentinel :
  (forall (INFINITY_int : Z) (g : Map) (u v s : Node) (dataset : string),
     at_uchar (dmat g) v.1 v.2 < 255 ->
     compute_cost INFINITY_int g u v s dataset
     = spec_step_cost g u v s (bool_decide (c_str dataset = "MLS"%string))) /\
  at_uchar (dmat blank1) 0 0 = 255 /\
  spec_step_cost blank1 (0, 0) (0, 0) (0, 0) false = 10%float /\
  spec_step_cost blank1 (0, 0) (0, 0) (0, 0) true = 10%float /\
  compute_cost 2147483647 blank1 (0, 0) (0, 0) (0, 0) "saintgall"
    = 0x1.400000258p+3%float /\
  compute_cost (-2147483648) blank1 (0, 0) (0, 0) (0, 0) "saintgall"
    = 0x1.3fffffda8p+3%float /\
  compute_cost 2147483647 blank1 (0, 0) (0, 0) (0, 0) "MLS"
    = 0x1.400000208p+3%float /\
  compute_cost (-2147483648) blank1 (0, 0) (0, 0) (0, 0) "MLS"
    = 0x1.3fffffdf8p+3%float /\
  PrimFloat.ltb 10 (compute_cost 2147483647 blank1 (0, 0) (0, 0) (0, 0)
                                 "saintgall") = true /\
  PrimFloat.ltb (compute_cost (-2147483648) blank1 (0, 0) (0, 0) (0, 0)
                              "saintgall") 10 = true.
Proof.
  split; [|vm_compute; done].
  intros INFINITY_int g u [vr vc] s dataset Hlt. cbn [fst snd] in Hlt.
  unfold compute_cost, spec_step_cost, spec_vertical_clearance, D,
    closest_vertical_obstacle, Astar.V, Astar.N, Astar.M, is_wall, Double.sq.
  rewrite strcmp_MLS. cbn [fst snd].
  destruct (Z.ltb_spec (at_uchar (dmat g) vr vc) 255); [|lia].
  destruct (Z.eqb_spec (at_uchar (dmat g) vr vc) 255); [lia|].
  by case_bool_decide.
Qed.

Lemma compute_cost_off_spec_at_sentinel_witness :
  at_uchar (dmat inked3) 1 1 < 255 /\
  compute_cost 2147483647 inked3 (0, 0) (1, 1) (0, 0) "MLS"
  = spec_step_cost inked3 (0, 0) (1, 1) (0, 0)
                   (bool_decide (c_str "MLS"%string = "MLS"%string)).
Proof.
  split; [reflexivity|].
  apply (proj1 compute_cost_off_spec_at_sentinel 2147483647 inked3 (0, 0)
               (1, 1) (0, 0) "MLS"%string).
  reflexivity.
Defined.

(** ** The clearance sentinel *)

(** At a sentinel entry the clearance is the [int] the conversion of
    [INFINITY] produced, and the two distance terms are computed from that
    integer. *)
Lemma sentinel_clearance (INFINITY_int : Z) (g : Map) (row col : Z) :
  at_uchar (dmat g) row col = 255 ->
  closest_vertical_obstacle INFINITY_int g (row, col) = INFINITY_int /\
  D INFINITY_int g (row, col)
    = ((1 / (1 + Double.of_int INFINITY_int))%float,
       (1 / (1 + Double.sq (Double.of_int INFINITY_int)))%float).
Proof.
  intros H. unfold D, closest_vertical_obstacle. by rewrite H.
Qed.

(** C2 (as the code behaves): [closest_vertical_obstacle] returns [int],
    so at a sentinel entry it returns an integer, not an infinity. With
    [INFINITY] converted to [INT_MAX] the two distance terms are [2^-31]
    and about [2.2e-19]; with [INT_MIN] the first one is negative. Neither
    is 0. *)
Theorem sentinel_terms_not_zero :
  at_uchar (dmat blank1) 0 0 = 255 /\
  closest_vertical_obstacle 2147483647 blank1 (0, 0) = 2147483647 /\
  D 2147483647 blank1 (0, 0)
    = (0x1p-31%float, 0x1.00000004p-62%float) /\
  closest_vertical_obstacle (-2147483648) blank1 (0, 0) = -2147483648 /\
  D (-2147483648) blank1 (0, 0)
    = ((-0x1.00000002p-31)%float, 0x1p-62%float) /\
  PrimFloat.eqb (D 2147483647 blank1 (0, 0)).1 0 = false /\
  PrimFloat.eqb (D 2147483647 blank1 (0, 0)).2 0 = false.
Proof. vm_compute. done. Qed.

(** ** The closed set *)

Section ClosedSet.

Variables (INFINITY_int : Z) (graph : Map) (start goal : Node)
          (dataset_name : string) (step mfactor : Z).

#[local] Abbreviation relax := (relax INFINITY_int graph start goal dataset_name mfactor).
#[local] Abbreviation expand := (expand INFINITY_int graph start goal dataset_name step mfactor).
#[local] Abbreviation astar_loop :=
  (astar_loop INFINITY_int graph start goal dataset_name step mfactor).
#[local] Abbreviation expansions :=
  (expansions INFINITY_int graph start goal dataset_name step mfactor).
#[local] Abbreviation astar_search :=
  (astar_search INFINITY_int graph start goal dataset_name step mfactor).

Lemma relax_closedSet (current neighbor : Node) (st : search) :
  closedSet (relax current st neighbor) = closedSet st.
Proof.
  unfold Astar.relax. destruct (decide (neighbor ∈ closedSet st)); [done|].
  destruct (index_gscore (gscore st) current) as [gcur gs].
  by destruct (match gs !! neighbor with
               | Some old => _
               | None => true
               end).
Qed.

Lemma expand_closedSet (current : Node) (st : search) :
  closedSet (expand current st) = closedSet st.
Proof.
  unfold Astar.expand. generalize (neighbors graph current step). intros l.
  revert st. induction l as [|n l IH]; intros st; [done|].
  cbn [fold_left]. rewrite IH. apply relax_closedSet.
Qed.

(** No statement of the loop inserts into [closedSet]. *)
Lemma astar_loop_closedSet (fuel : nat) (st st' : search) (e : exit) :
  astar_loop fuel st = Some (e, st') -> closedSet st' = closedSet st.
Proof.
  revert st. induction fuel as [|fuel IH]; intros st; [done|].
  cbn [Astar.astar_loop]. destruct (get (openSet st)) as [[current rest]|].
  - destruct (decide (current = goal)).
    + by intros [= <- <-].
    + intros H. apply IH in H. by rewrite H, expand_closedSet.
  - by intros [= <- <-].
Qed.

Lemma astar_loop_closedSet_empty (fuel : nat) (parents0 : gmap Node Node)
    (st : search) (e : exit) :
  astar_loop fuel (astar_init start parents0) = Some (e, st) ->
  closedSet st = ∅.
Proof. intros H. by apply astar_loop_closedSet in H. Qed.

Lemma astar_loop_open_empty (fuel : nat) (st st' : search) :
  astar_loop fuel st = Some (OpenEmpty, st') ->
  openSet st' = [] /\ goal ∉ expansions fuel st.
Proof.
  revert st. induction fuel as [|fuel IH]; intros st; [done|].
  cbn [Astar.astar_loop Astar.expansions].
  destruct (get (openSet st)) as [[current rest]|] eqn:Hget.
  - destruct (decide (current = goal)); [done|].
    intros H. apply IH in H as [H1 H2]. split; [done|].
    apply not_elem_of_cons. by split.
  - intros [= <-]. split; [|apply not_elem_of_nil].
    unfold get in Hget. by destruct (openSet st) as [|[? ?] ?].
Qed.

(** C3 (amended): when the open queue runs empty before the goal is
    popped, [astar_search] returns as it does on success: no error is
    signalled, and the caller's [parents] map holds the links recorded
    during the search. *)
Theorem open_exhausted_returns_parents (fuel : nat)
    (parents0 : gmap Node Node) (st : search) :
  astar_loop fuel (astar_init start parents0) = Some (OpenEmpty, st) ->
  astar_search fuel parents0 = Some (parents st) /\
  openSet st = [] /\
  goal ∉ expansions fuel (astar_init start parents0).
Proof.
  intros H. split.
  - unfold Astar.astar_search. by rewrite H.
  - by apply astar_loop_open_empty.
Qed.

End ClosedSet.

(** C3 as worded fails: with step 2 the goal [(1, 1)] cannot be reached
    from [(1, 0)] on a 2 x 3 grid. The queue runs empty after [(1, 0)] and
    [(1, 2)] are expanded, and [astar_search] returns with the link of
    [(1, 2)] in [parents]. *)
Lemma open_exhausted_no_error :
  expansions 2147483647 inked2 (1, 0) (1, 1) "saintgall" 2 1 10
             (astar_init (1, 0) ∅) = [(1, 0); (1, 2)] /\
  fst <$> astar_loop 2147483647 inked2 (1, 0) (1, 1) "saintgall" 2 1 10
                     (astar_init (1, 0) ∅) = Some OpenEmpty /\
  astar_search 2147483647 inked2 (1, 0) (1, 1) "saintgall" 2 1 10 ∅
    = Some {[ (1, 2) := (1, 0) ]}.
Proof. vm_compute. done. Qed.

Lemma open_exhausted_returns_parents_witness :
  exists st,
    astar_loop 2147483647 inked2 (1, 0) (1, 1) "saintgall" 2 1 10
               (astar_init (1, 0) ∅) = Some (OpenEmpty, st) /\
    astar_search 2147483647 inked2 (1, 0) (1, 1) "saintgall" 2 1 10 ∅
      = Some (parents st) /\
    openSet st = [] /\
    (1, 1) ∉ expansions 2147483647 inked2 (1, 0) (1, 1) "saintgall" 2 1 10
                         (astar_init (1, 0) ∅).
Proof.
  eexists. split; [vm_compute; reflexivity|].
  apply (open_exhausted_returns_parents 2147483647 inked2 (1, 0) (1, 1)
           "saintgall" 2 1 10 ∅). vm_compute. reflexivity.
Defined.

(** C1 (as the code behaves): nothing is ever inserted into [closedSet]
    and a popped node is not tested against it. On [inked3], from [(0, 0)]
    to [(1, 3)] with step 1 and factor 1, the run reaches the goal after
    expanding node [(0, 3)] twice. *)
Theorem node_expanded_twice :
  expansions 2147483647 inked3 (0, 0) (1, 3) "saintgall" 1 1 100
             (astar_init (0, 0) ∅)
    = [(0, 0); (1, 0); (1, 1); (2, 1); (0, 1); (2, 0);
       (1, 2); (0, 2); (2, 2); (0, 3); (0, 3)] /\
  (fun r => (r.1, closedSet r.2))
    <$> astar_loop 2147483647 inked3 (0, 0) (1, 3) "saintgall" 1 1 100
                   (astar_init (0, 0) ∅)
    = Some (GoalPopped, ∅).
Proof. vm_compute. done. Qed.

(** ** The parent links *)

Lemma elem_of_put (e : Element) (v : Node) (f : float) (l : list Element) :
  e ∈ put v f l <-> e = (f, v) \/ e ∈ l.
Proof.
  induction l as [|x l IH]; cbn [put].
  - rewrite list_elem_of_singleton. split; [auto|].
    intros [H|H]; [done|by apply elem_of_nil in H].
  - destruct (Element_lt (f, v) x).
    + apply elem_of_cons.
    + rewrite !elem_of_cons, IH. tauto.
Qed.

Section Planner.

Variables (INFINITY_int : Z) (graph : Map) (start goal : Node)
          (dataset_name : string) (step mfactor : Z).

#[local] Abbreviation relax :=
  (relax INFINITY_int graph start goal dataset_name mfactor).
#[local] Abbreviation relax_monotone :=
  (relax_monotone INFINITY_int graph start dataset_name).
#[local] Abbreviation expand_monotone :=
  (expand_monotone INFINITY_int graph start goal dataset_name mfactor).
#[local] Abbreviation sums_monotone :=
  (sums_monotone INFINITY_int graph start goal dataset_name step mfactor).
#[local] Abbreviation astar_loop :=
  (astar_loop INFINITY_int graph start goal dataset_name step mfactor).
#[local] Abbreviation linked := (linked graph start step).
#[local] Abbreviation route := (route graph start step).
#[local] Abbreviation inv := (inv graph start step).

Lemma linked_start_le (P : gmap Node Node) (G : gmap Node float) (n : Node) :
  linked P G n ->
  forall gn, G !! n = Some gn ->
  exists g0, G !! start = Some g0 /\ Double.le g0 gn.
Proof.
  induction 1 as [g Hg Hgg|n p gn gp Hne HP Hnb Hgn Hgp Hle Hl IH]; intros x Hx.
  - exists g. split; [done|]. congruence.
  - destruct (IH gp Hgp) as (g0 & Hg0 & Hle0). exists g0. split; [done|].
    replace x with gn by congruence. by apply (DoubleFacts.le_trans g0 gp gn).
Qed.

Section Update.

(** One improving relaxation: [v], a neighbour of the linked node [u],
    gets the score [new_g] and the parent [u]. *)
Variables (P : gmap Node Node) (G : gmap Node float) (u v : Node)
          (gu new_g : float).
Hypothesis Hu : G !! u = Some gu.
Hypothesis Hmono : Double.le gu new_g.
Hypothesis Hlinked : linked P G u.
Hypothesis Hnb : v ∈ neighbors graph u step.
Hypothesis Hbetter : forall old, G !! v = Some old -> Double.lt new_g old.

Lemma below_is_not_v (n : Node) (gn : float) :
  G !! n = Some gn -> Double.le gn gu -> n <> v.
Proof.
  intros Hn Hle ->. apply (DoubleFacts.le_not_lt gn new_g).
  - by apply (DoubleFacts.le_trans gn gu new_g).
  - by apply Hbetter.
Qed.

Lemma linked_below_kept (n : Node) :
  linked P G n ->
  (forall gn, G !! n = Some gn -> Double.le gn gu) ->
  linked (<[v := u]> P) (<[v := new_g]> G) n.
Proof.
  induction 1 as [g Hg Hgg|n p gn gp Hne HP Hnbr Hgn Hgp Hle Hl IH]; intros Hb.
  - apply (linked_start graph start step _ _ g); [|done].
    rewrite lookup_insert_ne; [done|].
    intros Heq. by apply (below_is_not_v start g Hg (Hb g Hg)).
  - pose proof (Hb gn Hgn) as Hgnu.
    assert (n <> v) as Hnv by (by apply (below_is_not_v n gn)).
    assert (Double.le gp gu) as Hgpu by (by apply (DoubleFacts.le_trans gp gn gu)).
    assert (p <> v) as Hpv by (by apply (below_is_not_v p gp)).
    apply (linked_step graph start step _ _ n p gn gp); try done.
    + by rewrite lookup_insert_ne.
    + by rewrite lookup_insert_ne.
    + by rewrite lookup_insert_ne.
    + apply IH. intros x Hx. congruence.
Qed.

Lemma start_is_not_v : v <> start.
Proof.
  destruct (linked_start_le P G u Hlinked gu Hu) as (g0 & Hg0 & Hle).
  intros Heq. by apply (below_is_not_v start g0).
Qed.

Lemma u_is_not_v : u <> v.
Proof. apply (below_is_not_v u gu Hu). by apply (DoubleFacts.le_refl_l gu new_g). Qed.

Lemma linked_u_kept : linked (<[v := u]> P) (<[v := new_g]> G) u.
Proof.
  apply linked_below_kept; [done|]. intros x Hx.
  replace x with gu by congruence. by apply (DoubleFacts.le_refl_l gu new_g).
Qed.

Lemma linked_v_new : linked (<[v := u]> P) (<[v := new_g]> G) v.
Proof.
  apply (linked_step graph start step _ _ v u new_g gu).
  - apply start_is_not_v.
  - apply lookup_insert_eq.
  - done.
  - apply lookup_insert_eq.
  - rewrite lookup_insert_ne; [done|]. intros Heq. by apply u_is_not_v.
  - done.
  - apply linked_u_kept.
Qed.

Lemma linked_kept (n : Node) :
  linked P G n -> linked (<[v := u]> P) (<[v := new_g]> G) n.
Proof.
  induction 1 as [g Hg Hgg|n p gn gp Hne HP Hnbr Hgn Hgp Hle Hl IH].
  - apply (linked_start graph start step _ _ g); [|done].
    rewrite lookup_insert_ne; [done|]. apply start_is_not_v.
  - destruct (decide (n = v)) as [->|Hnv]; [apply linked_v_new|].
    destruct (decide (p = v)) as [->|Hpv].
    + apply (linked_step graph start step _ _ n v gn new_g); try done.
      * by rewrite lookup_insert_ne.
      * by rewrite lookup_insert_ne.
      * apply lookup_insert_eq.
      * apply (DoubleFacts.le_trans new_g gp gn); [|done].
        apply DoubleFacts.lt_le. by apply Hbetter.
    + apply (linked_step graph start step _ _ n p gn gp); try done.
      * by rewrite lookup_insert_ne.
      * by rewrite lookup_insert_ne.
      * by rewrite lookup_insert_ne.
Qed.

End Update.

Lemma update_inv (st : search) (u v : Node) (gu new_g f : float) :
  inv st -> gscore st !! u = Some gu -> Double.le gu new_g ->
  v ∈ neighbors graph u step ->
  (forall old, gscore st !! v = Some old -> Double.lt new_g old) ->
  inv (mkSearch (put v f (openSet st)) (<[v := new_g]> (gscore st))
                (closedSet st) (<[v := u]> (parents st))).
Proof.
  intros [Hl Ho] Hu Hmono Hnb Hbetter.
  assert (linked (parents st) (gscore st) u) as Hlu by (apply Hl; eauto).
  split; cbn [gscore parents openSet].
  - intros n Hn. destruct (decide (n = v)) as [->|Hne].
    + by apply (linked_v_new _ _ u v gu new_g).
    + rewrite lookup_insert_ne in Hn by done.
      apply (linked_kept _ _ u v gu new_g); auto.
  - intros e He. apply elem_of_put in He as [->|He]; cbn [snd].
    + rewrite lookup_insert_eq. eauto.
    + destruct (decide (v = e.2)) as [->|Hne].
      * rewrite lookup_insert_eq. eauto.
      * rewrite lookup_insert_ne by done. by apply Ho.
Qed.

Lemma relax_inv (current neighbor : Node) (st : search) :
  inv st -> is_Some (gscore st !! current) ->
  neighbor ∈ neighbors graph current step ->
  relax_monotone current st neighbor = true ->
  inv (relax current st neighbor) /\
  is_Some (gscore (relax current st neighbor) !! current).
Proof.
  intros Hinv [gu Hu] Hnb Hmon.
  unfold Astar.relax, Astar.relax_monotone in *.
  destruct (decide (neighbor ∈ closedSet st)); [by eauto|].
  unfold index_gscore in *. rewrite Hu in *.
  set (new_g := (gu + compute_cost INFINITY_int graph current neighbor start
                                   dataset_name)%float) in *.
  assert (is_Some (<[neighbor := new_g]> (gscore st) !! current)) as Hcur.
  { destruct (decide (neighbor = current)) as [->|Hne].
    - rewrite lookup_insert_eq. eauto.
    - rewrite lookup_insert_ne by done. eauto. }
  destruct (gscore st !! neighbor) as [old|] eqn:Hv.
  - destruct (PrimFloat.ltb new_g old) eqn:Hlt.
    + split; [|exact Hcur].
      apply (update_inv st current neighbor gu new_g); try done.
      intros x Hx. by replace x with old by congruence.
    + split; [|cbn; eauto]. destruct Hinv as [Hl Ho]. by split.
  - split; [|exact Hcur].
    apply (update_inv st current neighbor gu new_g); try done.
    intros x Hx. congruence.
Qed.

Lemma expand_inv (current : Node) (l : list Node) (st : search) :
  (forall n, n ∈ l -> n ∈ neighbors graph current step) ->
  inv st -> is_Some (gscore st !! current) ->
  expand_monotone current l st = true ->
  inv (fold_left (relax current) l st).
Proof.
  revert st. induction l as [|n l IH]; intros st Hsub Hinv Hcur Hmon; [done|].
  cbn [fold_left]. cbn [Astar.expand_monotone] in Hmon.
  apply andb_true_iff in Hmon as [Hm1 Hm2].
  destruct (relax_inv current n st Hinv Hcur) as [Hinv' Hcur'];
    [apply Hsub; left|done|].
  apply IH; try done. intros m Hm. apply Hsub. by right.
Qed.

Lemma astar_init_inv (parents0 : gmap Node Node) :
  inv (astar_init start parents0).
Proof.
  split; cbn [astar_init gscore parents openSet put].
  - intros n [g Hn]. apply lookup_singleton_Some in Hn as [<- <-].
    apply (linked_start graph start step _ _ 0%float); [apply lookup_singleton_eq|reflexivity].
  - intros e He. apply list_elem_of_singleton in He as ->. cbn [snd].
    rewrite lookup_singleton_eq. eauto.
Qed.

(** When the loop pops the goal, the goal is linked in the final tables. *)
Lemma astar_loop_goal_linked (fuel : nat) (st st' : search) :
  inv st -> sums_monotone fuel st = true ->
  astar_loop fuel st = Some (GoalPopped, st') ->
  linked (parents st') (gscore st') goal.
Proof.
  revert st. induction fuel as [|fuel IH]; intros st Hinv Hmon Hrun; [done|].
  cbn [Astar.astar_loop] in Hrun. cbn [Astar.sums_monotone] in Hmon.
  destruct (get (openSet st)) as [[current rest]|] eqn:Hget; [|done].
  unfold get in Hget. destruct (openSet st) as [|[pr c] l] eqn:Hopen; [done|].
  injection Hget as -> ->.
  destruct Hinv as [Hl Ho].
  assert (is_Some (gscore st !! current)) as Hcur.
  { apply (Ho (pr, current)). rewrite Hopen. left. }
  set (st1 := mkSearch rest (gscore st) (closedSet st) (parents st)) in *.
  assert (inv st1) as Hinv1.
  { split; [exact Hl|]. cbn [openSet st1]. intros e He. apply Ho.
    rewrite Hopen. by right. }
  destruct (decide (current = goal)) as [->|Hne].
  - injection Hrun as <-. by apply Hl.
  - apply andb_true_iff in Hmon as [Hm1 Hm2].
    apply (IH (Astar.expand INFINITY_int graph start goal dataset_name step
                 mfactor current st1)); try done.
    by apply expand_inv.
Qed.

(** *** From links to the reconstructed path *)

Lemma linked_route (P : gmap Node Node) (G : gmap Node float) (n : Node) :
  linked P G n -> exists l, route P n l.
Proof.
  induction 1 as [g Hg Hgg|n p gn gp Hne HP Hnb Hgn Hgp Hle Hl [l IH]].
  - exists [start]. constructor.
  - exists (l ++ [n]). by apply (route_step graph start step _ n p).
Qed.

Lemma route_head (P : gmap Node Node) (n : Node) (l : list Node) :
  route P n l -> head l = Some start.
Proof.
  induction 1 as [|n p l Hne HP Hnb Hr IH]; [done|].
  destruct l as [|x l]; [done|]. exact IH.
Qed.

Lemma route_last (P : gmap Node Node) (n : Node) (l : list Node) :
  route P n l -> last l = Some n.
Proof. destruct 1; [done|apply last_snoc]. Qed.

Lemma route_adjacent (P : gmap Node Node) (n : Node) (l : list Node) :
  route P n l ->
  forall i a b, l !! i = Some a -> l !! S i = Some b ->
                b ∈ neighbors graph a step.
Proof.
  induction 1 as [|n p l Hne HP Hnb Hr IH]; intros i a b Ha Hb.
  - by destruct i.
  - destruct (decide (S i < length l)%nat) as [Hlt|Hge].
    + rewrite lookup_app_l in Ha by lia. rewrite lookup_app_l in Hb by lia.
      by apply (IH i).
    + assert (S i = length l) as Hi.
      { apply lookup_lt_Some in Hb. rewrite length_app in Hb. cbn in Hb. lia. }
      rewrite lookup_app_l in Ha by lia.
      rewrite lookup_app_r in Hb by lia.
      replace (S i - length l)%nat with O in Hb by lia.
      injection Hb as <-.
      apply route_last in Hr. rewrite last_lookup in Hr.
      replace (pred (length l)) with i in Hr by lia.
      by replace a with p by congruence.
Qed.

Lemma route_from_start (P : gmap Node Node) (l : list Node) :
  route P start l -> l = [start].
Proof. by inversion 1. Qed.

Lemma route_reconstruct (P : gmap Node Node) (n : Node) (l : list Node) :
  route P n l ->
  forall fuel acc, (length l <= fuel)%nat ->
    reconstruct_loop fuel start n P (acc ++ [n]) = Some (acc ++ rev l, P).
Proof.
  induction 1 as [|n p l Hne HP Hnb Hr IH]; intros fuel acc Hfuel.
  - destruct fuel as [|fuel]; [cbn in Hfuel; lia|].
    cbn [reconstruct_loop]. by rewrite decide_True.
  - rewrite length_app in Hfuel. cbn [length] in Hfuel.
    destruct fuel as [|fuel]; [lia|]. cbn [reconstruct_loop].
    rewrite decide_False by done. unfold index_parents. rewrite HP.
    rewrite (IH fuel (acc ++ [n])) by lia.
    by rewrite rev_app_distr, <- app_assoc.
Qed.


End Planner.


(** The path that run yields. *)
Example planned_path_inked3 :
  (astar_search 2147483647 inked3 (0, 0) (1, 3) "saintgall" 1 1 100 ∅
     ≫= reconstruct_path 100 (0, 0) (1, 3)) ≫= (fun r => Some r.1)
    = Some [(0, 0); (1, 1); (1, 2); (1, 3)].
Proof. vm_compute. reflexivity. Qed.

(** ** Path reconstruction *)

Lemma parent_at_index_parents (P : gmap Node Node) (n m : Node) :
  parent_at (index_parents P n).2 m = parent_at P m.
Proof.
  unfold parent_at, index_parents.
  destruct (P !! n) eqn:Hn; cbn [snd]; [done|].
  destruct (decide (n = m)) as [<-|Hne].
  - rewrite lookup_insert_eq, Hn. reflexivity.
  - rewrite lookup_insert_ne by done. destruct (P !! m); reflexivity.
Qed.

Lemma iter_parent_at_ext (P P' : gmap Node Node) (n : Node) (i : nat) :
  (forall m, parent_at P' m = parent_at P m) ->
  Nat.iter i (parent_at P') n = Nat.iter i (parent_at P) n.
Proof.
  intros H. induction i as [|i IH]; [done|].
  rewrite !Nat.iter_succ, IH. apply H.
Qed.

(** The loop of [reconstruct_path] started [k] links away from [start]
    appends those [k] links and stops. *)
Lemma reconstruct_loop_chain (k fuel : nat) (start current : Node)
    (P : gmap Node Node) (path : list Node) :
  Nat.iter k (parent_at P) current = start ->
  (forall i, (i < k)%nat -> Nat.iter i (parent_at P) current <> start) ->
  (k < fuel)%nat ->
  exists P',
    reconstruct_loop fuel start current P path
      = Some (path ++ map (fun i => Nat.iter i (parent_at P) current) (seq 1 k), P').
Proof.
  revert fuel current P path.
  induction k as [|k IH]; intros fuel current P path Hk Hmin Hfuel;
    (destruct fuel as [|fuel]; [lia|]); cbn [reconstruct_loop].
  - cbn in Hk. rewrite decide_True by done. exists P. cbn. by rewrite app_nil_r.
  - rewrite decide_False by (apply (Hmin O); lia).
    destruct (index_parents P current) as [next P1] eqn:Hidx.
    assert (next = parent_at P current) as Hnext
      by (unfold parent_at; by rewrite Hidx).
    assert (forall m, parent_at P1 m = parent_at P m) as Hext.
    { intros m. replace P1 with (index_parents P current).2 by (by rewrite Hidx).
      apply parent_at_index_parents. }
    destruct (IH fuel next P1 (path ++ [next])) as [P' HP'].
    + rewrite (iter_parent_at_ext P P1) by done.
      rewrite Hnext, <- Nat.iter_succ_r. exact Hk.
    + intros i Hi. rewrite (iter_parent_at_ext P P1) by done.
      rewrite Hnext, <- Nat.iter_succ_r. apply Hmin. lia.
    + lia.
    + exists P'. rewrite HP'. f_equal. f_equal.
      rewrite <- app_assoc. f_equal. cbn [seq map app]. f_equal.
      * by rewrite Hnext.
      * rewrite <- (seq_shift k 1), map_map. apply map_ext. intros i.
        rewrite (iter_parent_at_ext P P1) by done.
        by rewrite Hnext, <- Nat.iter_succ_r.
Qed.

(** The first index at which a sequence that hits [start] does so. *)
Lemma first_hit_or_miss (f : nat -> Node) (start : Node) (k : nat) :
  (exists k0, (k0 <= k)%nat /\ f k0 = start /\
              forall i, (i < k0)%nat -> f i <> start) \/
  (forall i, (i <= k)%nat -> f i <> start).
Proof.
  induction k as [|k [(k0 & ? & ? & ?)|IH]].
  - destruct (decide (f O = start)) as [H0|H0].
    + left. exists O. split; [lia|]. split; [done|]. intros i Hi. lia.
    + right. intros i Hi. by replace i with O by lia.
  - left. exists k0. split; [lia|done].
  - destruct (decide (f (S k) = start)) as [Hk|Hk].
    + left. exists (S k). split; [lia|]. split; [done|].
      intros i Hi. apply IH. lia.
    + right. intros i Hi. destruct (decide (i = S k)) as [->|]; [done|].
      apply IH. lia.
Qed.

Lemma first_hit (f : nat -> Node) (start : Node) (k : nat) :
  f k = start ->
  exists k0, (k0 <= k)%nat /\ f k0 = start /\
             forall i, (i < k0)%nat -> f i <> start.
Proof.
  intros Hk. destruct (first_hit_or_miss f start k) as [H|H]; [done|].
  by destruct (H k).
Qed.

(** C10: if following [parents] from [goal] reaches [start] after finitely
    many links, [reconstruct_path] terminates, with any fuel above the
    number of links of the first arrival, and returns the parent chain
    reversed: a list that begins at [start] and ends at [goal]. *)
Theorem reconstruct_path_terminates (P : gmap Node Node) (start goal : Node)
    (k : nat) :
  Nat.iter k (parent_at P) goal = start ->
  exists k0 path,
    (k0 <= k)%nat /\
    path = rev (parent_chain P goal k0) /\
    (forall fuel, (k0 < fuel)%nat ->
       exists P', reconstruct_path fuel start goal P = Some (path, P')) /\
    head path = Some start /\ last path = Some goal /\
    length path = S k0.
Proof.
  intros Hk.
  destruct (first_hit (fun i => Nat.iter i (parent_at P) goal) start k Hk)
    as (k0 & Hle & Hk0 & Hmin).
  exists k0, (rev (parent_chain P goal k0)).
  split; [done|]. split; [done|]. split; [|split; [|split]].
  - intros fuel Hfuel.
    destruct (reconstruct_loop_chain k0 fuel start goal P [goal] Hk0 Hmin Hfuel)
      as [P' HP'].
    exists P'. unfold reconstruct_path. rewrite HP'. reflexivity.
  - unfold parent_chain. rewrite seq_S, map_app, rev_app_distr.
    cbn [map rev app head Nat.add]. by rewrite Hk0.
  - unfold parent_chain. cbn [seq map rev]. by rewrite last_snoc.
  - unfold parent_chain. by rewrite length_rev, length_map, length_seq.
Qed.

Lemma reconstruct_path_terminates_witness :
  Nat.iter 2 (parent_at {[ (1, 2) := (1, 1); (1, 1) := (1, 0) ]}) (1, 2) = (1, 0) /\
  exists k0 path,
    (k0 <= 2)%nat /\
    path = rev (parent_chain {[ (1, 2) := (1, 1); (1, 1) := (1, 0) ]} (1, 2) k0) /\
    (forall fuel, (k0 < fuel)%nat ->
       exists P', reconstruct_path fuel (1, 0) (1, 2)
                    {[ (1, 2) := (1, 1); (1, 1) := (1, 0) ]} = Some (path, P')) /\
    head path = Some (1, 0) /\ last path = Some (1, 2) /\
    length path = S k0.
Proof.
  split; [reflexivity|].
  apply (reconstruct_path_terminates
           {[ (1, 2) := (1, 1); (1, 1) := (1, 0) ]} (1, 0) (1, 2) 2).
  reflexivity.
Defined.

End AstarFacts.

(** * More on the comparisons of doubles *)

Module DoubleOrderFacts.
Import Double DoubleFacts.

Lemma SFltb_SFleb_trans (x y z : spec_float) :
  SFltb x y = true -> SFleb y z = true -> SFltb x z = true.
Proof.
  unfold SFleb, SFltb, SFcompare.
  destruct x as [[]|[]| |[] mx ex], y as [[]|[]| |[] my ey],
           z as [[]|[]| |[] mz ez];
    cbn; try discriminate; try reflexivity; intros H1 H2; sf_cases.
Qed.
Lemma SFleb_SFltb_trans (x y z : spec_float) :
  SFleb x y = true -> SFltb y z = true -> SFltb x z = true.
Proof.
  unfold SFleb, SFltb, SFcompare.
  destruct x as [[]|[]| |[] mx ex], y as [[]|[]| |[] my ey],
           z as [[]|[]| |[] mz ez];
    cbn; try discriminate; try reflexivity; intros H1 H2; sf_cases.
Qed.
Lemma SFltb_false_SFleb (x y : spec_float) :
  SFleb x x = true -> SFleb y y = true -> SFltb x y = false -> SFleb y x = true.
Proof.
  unfold SFleb, SFltb. rewrite (SFcompare_antisym x y).
  destruct x as [[]|[]| |[] mx ex], y as [[]|[]| |[] my ey];
    cbn; try discriminate; try reflexivity; intros _ _;
    destruct (ex ?= ey); cbn; try discriminate; try reflexivity;
    destruct (Pos.compare_cont Eq mx my); cbn; try discriminate; reflexivity.
Qed.
Lemma le_lt_trans (a b c : float) : Double.le a b -> Double.lt b c -> Double.lt a c.
Proof.
  unfold Double.le, Double.lt. rewrite !ltb_spec, leb_spec. apply SFleb_SFltb_trans.
Qed.
Lemma lt_le_trans (a b c : float) : Double.lt a b -> Double.le b c -> Double.lt a c.
Proof.
  unfold Double.le, Double.lt. rewrite !ltb_spec, leb_spec. apply SFltb_SFleb_trans.
Qed.
Lemma not_lt_le (a b : float) :
  Double.le a a -> Double.le b b -> PrimFloat.ltb a b = false -> Double.le b a.
Proof.
  unfold Double.le. rewrite ltb_spec, !leb_spec. apply SFltb_false_SFleb.
Qed.

End DoubleOrderFacts.

(** * More on the path projector *)

Module ProjectorFacts.
Import Utils Props UtilsFacts.

Lemma set_uchar_shape m i j v :
  rows (set_uchar m i j v) = rows m /\ cols (set_uchar m i j v) = cols m /\
  length (data (set_uchar m i j v)) = length (data m).
Proof.
  unfold set_uchar. destruct (offset m i j <? 0); [done|]. cbn.
  by rewrite length_insert.
Qed.

Lemma set_uchar_well_formed m i j v : well_formed m -> well_formed (set_uchar m i j v).
Proof.
  unfold well_formed. destruct (set_uchar_shape m i j v) as (-> & -> & ->). done.
Qed.

Lemma inside_offset m i j :
  well_formed m -> inside m i j ->
  0 <= offset m i j /\ (Z.to_nat (offset m i j) < length (data m))%nat.
Proof.
  intros (Hr & Hc & Hlen) [Hi Hj]. unfold offset.
  assert (0 <= i * cols m) by (apply Z.mul_nonneg_nonneg; lia).
  assert (0 <= (rows m - 1 - i) * cols m) by (apply Z.mul_nonneg_nonneg; lia).
  split; [lia|]. apply Nat2Z.inj_lt. rewrite Z2Nat.id by lia. lia.
Qed.

Lemma offset_inj m i j a b :
  inside m i j -> inside m a b -> offset m i j = offset m a b -> i = a /\ j = b.
Proof.
  intros [Hi Hj] [Ha Hb]. unfold offset. intros H.
  assert (i = a) as ->; [|lia].
  destruct (Z.lt_trichotomy i a) as [Hlt|[Heq|Hgt]]; [exfalso|done|exfalso].
  - assert (1 * cols m <= (a - i) * cols m)
      by (apply Z.mul_le_mono_nonneg_r; lia). lia.
  - assert (1 * cols m <= (i - a) * cols m)
      by (apply Z.mul_le_mono_nonneg_r; lia). lia.
Qed.

Lemma at_set_uchar m a b v i j :
  well_formed m -> inside m a b -> inside m i j ->
  at_uchar (set_uchar m a b v) i j
  = if decide ((a, b) = (i, j)) then v else at_uchar m i j.
Proof.
  intros Hwf Hab Hij.
  destruct (inside_offset m a b Hwf Hab) as [Hoa Hla].
  destruct (inside_offset m i j Hwf Hij) as [Hoi Hli].
  unfold at_uchar, set_uchar.
  destruct (Z.ltb_spec (offset m a b) 0); [lia|].
  unfold offset at 1 3. cbn [cols data]. fold (offset m i j).
  destruct (Z.ltb_spec (offset m i j) 0); [lia|].
  destruct (decide ((a, b) = (i, j))) as [[= -> ->]|Hne].
  - by rewrite list_lookup_insert_eq.
  - rewrite list_lookup_insert_ne; [done|]. intros Heq.
    apply Hne. destruct (offset_inj m a b i j Hab Hij) as [-> ->]; [lia|done].
Qed.

Lemma write_all_shape v ws m :
  rows (write_all v m ws) = rows m /\ cols (write_all v m ws) = cols m.
Proof.
  unfold write_all. revert m. induction ws as [|[i j] ws IH]; intros m; [done|].
  cbn [fold_left]. destruct (IH (set_uchar m i j v)) as [-> ->].
  destruct (set_uchar_shape m i j v) as (-> & -> & _). done.
Qed.

Lemma write_all_well_formed v ws m : well_formed m -> well_formed (write_all v m ws).
Proof.
  unfold write_all. revert m. induction ws as [|[i j] ws IH]; intros m Hwf; [done|].
  cbn [fold_left]. apply IH. by apply set_uchar_well_formed.
Qed.

(** Writes that stay inside the image change the written pixels and no
    other. *)
Lemma at_write_all v ws m i j :
  well_formed m -> (forall a b, (a, b) ∈ ws -> inside m a b) -> inside m i j ->
  at_uchar (write_all v m ws) i j
  = if decide ((i, j) ∈ ws) then v else at_uchar m i j.
Proof.
  unfold write_all. revert m.
  induction ws as [|[a b] ws IH]; intros m Hwf Hws Hij.
  - cbn. rewrite decide_False; [done|apply not_elem_of_nil].
  - cbn [fold_left].
    assert (inside m a b) as Hab by (apply Hws; left).
    destruct (set_uchar_shape m a b v) as (Hr & Hc & _).
    rewrite IH.
    + destruct (decide ((i, j) ∈ ws)) as [Hin|Hnin].
      * rewrite decide_True; [done|by right].
      * rewrite at_set_uchar by done.
        destruct (decide ((a, b) = (i, j))) as [Heq|Hne].
        -- rewrite decide_True; [done|]. rewrite Heq. left.
        -- rewrite decide_False; [done|].
           intros Hin. apply elem_of_cons in Hin as [Heq|Hin]; [by apply Hne|done].
    + by apply set_uchar_well_formed.
    + intros a' b' Hin. unfold inside. rewrite Hr, Hc. apply Hws. by right.
    + unfold inside. by rewrite Hr, Hc.
Qed.

(** Writing one value: order and repetition of the writes do not matter. *)
Lemma set_uchar_comm m a b c d v :
  set_uchar (set_uchar m a b v) c d v = set_uchar (set_uchar m c d v) a b v.
Proof.
  unfold set_uchar, offset.
  destruct (a * cols m + b <? 0) eqn:H1; destruct (c * cols m + d <? 0) eqn:H2;
    cbn [cols rows data]; rewrite ?H1, ?H2; cbn [cols rows data]; try done.
  f_equal.
  destruct (decide (Z.to_nat (a * cols m + b) = Z.to_nat (c * cols m + d))) as [->|Hne].
  - done.
  - by apply list_insert_insert_ne.
Qed.

Lemma write_all_set_uchar v ws m i j :
  write_all v (set_uchar m i j v) ws = set_uchar (write_all v m ws) i j v.
Proof.
  unfold write_all. revert m. induction ws as [|[a b] ws IH]; intros m; [done|].
  cbn [fold_left]. rewrite <- IH. f_equal. apply set_uchar_comm.
Qed.

Lemma set_uchar_twice m i j v :
  set_uchar (set_uchar m i j v) i j v = set_uchar m i j v.
Proof.
  unfold set_uchar, offset.
  destruct (i * cols m + j <? 0) eqn:H1; cbn [cols rows data]; rewrite ?H1; [done|].
  cbn [cols rows data]. f_equal. apply list_insert_insert_eq.
Qed.

Lemma write_all_absorb v ws m i j :
  (i, j) ∈ ws -> set_uchar (write_all v m ws) i j v = write_all v m ws.
Proof.
  revert m. induction ws as [|[a b] ws IH]; intros m Hin.
  - by apply elem_of_nil in Hin.
  - change (write_all v m ((a, b) :: ws)) with (write_all v (set_uchar m a b v) ws).
    apply elem_of_cons in Hin as [[= -> ->]|Hin].
    + rewrite <- write_all_set_uchar. by rewrite set_uchar_twice.
    + by apply IH.
Qed.

Lemma write_all_again v ws ws' m :
  (forall w, w ∈ ws' -> w ∈ ws) ->
  write_all v (write_all v m ws) ws' = write_all v m ws.
Proof.
  induction ws' as [|[a b] ws' IH]; intros Hsub; [done|].
  change (write_all v (write_all v m ws) ((a, b) :: ws'))
    with (write_all v (set_uchar (write_all v m ws) a b v) ws').
  rewrite write_all_absorb by (apply Hsub; left).
  apply IH. intros w Hw. apply Hsub. by right.
Qed.

Lemma write_all_app v ws ws' m :
  write_all v m (ws ++ ws') = write_all v (write_all v m ws) ws'.
Proof. unfold write_all. apply fold_left_app. Qed.

Lemma write_all_swap v ws ws' m :
  write_all v (write_all v m ws) ws' = write_all v (write_all v m ws') ws.
Proof.
  revert m. induction ws as [|[a b] ws IH]; intros m; [done|].
  change (write_all v m ((a, b) :: ws)) with (write_all v (set_uchar m a b v) ws).
  rewrite IH.
  change (write_all v (write_all v m ws') ((a, b) :: ws))
    with (write_all v (set_uchar (write_all v m ws') a b v) ws).
  by rewrite write_all_set_uchar.
Qed.

Lemma elem_of_zrange_down hi lo x : x ∈ zrange_down hi lo <-> lo <= x <= hi.
Proof.
  unfold zrange_down. rewrite list_elem_of_fmap. split.
  - intros (k & -> & Hk). apply elem_of_seq in Hk. lia.
  - intros H. exists (Z.to_nat (hi - x)). split; [lia|].
    apply elem_of_seq. lia.
Qed.

Lemma elem_of_stroke (input : Mat) (span : list Z) (col i j : Z) :
  (i, j) ∈ stroke input span col <->
  i ∈ span /\ (j = col \/ (j = col + 1 /\ col < cols input)).
Proof.
  split; [apply stroke_writes|]. intros [Hi Hj].
  unfold stroke. rewrite list_elem_of_In, in_flat_map. exists i.
  split; [by apply list_elem_of_In|].
  destruct Hj as [->|[-> Hc]]; [by left|]. right.
  destruct (Z.ltb_spec col (cols input)); [by left|lia].
Qed.

Lemma elem_of_above_writes (input : Mat) (B : list Node) (i j : Z) :
  (i, j) ∈ segment_above_boundary_writes input B <->
  exists r c, (r, c) ∈ B /\ r <= i < rows input /\
              (j = c \/ (j = c + 1 /\ c < cols input)).
Proof.
  unfold segment_above_boundary_writes. rewrite list_elem_of_In, in_flat_map. split.
  - intros ([r c] & Hn & Hin). apply list_elem_of_In in Hn, Hin.
    apply elem_of_stroke in Hin as [Hi Hj]. apply elem_of_zrange in Hi. eauto.
  - intros (r & c & Hn & Hi & Hj). exists (r, c). split; [by apply list_elem_of_In|].
    apply list_elem_of_In, elem_of_stroke. split; [by apply elem_of_zrange|done].
Qed.

Lemma elem_of_below_writes (input : Mat) (B : list Node) (i j : Z) :
  (i, j) ∈ segment_below_boundary_writes input B <->
  exists r c, (r, c) ∈ B /\ 0 <= i <= r /\
              (j = c \/ (j = c + 1 /\ c < cols input)).
Proof.
  unfold segment_below_boundary_writes. rewrite list_elem_of_In, in_flat_map. split.
  - intros ([r c] & Hn & Hin). apply list_elem_of_In in Hn, Hin.
    apply elem_of_stroke in Hin as [Hi Hj]. apply elem_of_zrange_down in Hi. eauto.
  - intros (r & c & Hn & Hi & Hj). exists (r, c). split; [by apply list_elem_of_In|].
    apply list_elem_of_In, elem_of_stroke. split; [by apply elem_of_zrange_down|done].
Qed.

Lemma elem_of_draw_path_writes (graph : Mat) (path : list Node) (i j : Z) :
  (i, j) ∈ draw_path_writes graph path <->
  exists c, (i, c) ∈ path /\ (j = c \/ (j = c + 1 /\ c < cols graph)).
Proof.
  unfold draw_path_writes. rewrite list_elem_of_In, in_flat_map. split.
  - intros ([r c] & Hn & Hin). apply list_elem_of_In in Hn.
    destruct Hin as [[= <- <-]|Hin]; [by eauto|].
    destruct (Z.ltb_spec c (cols graph)); [|done].
    destruct Hin as [[= <- <-]|[]]. eauto.
  - intros (c & Hn & Hj). exists (i, c). split; [by apply list_elem_of_In|].
    destruct Hj as [->|[-> Hc]]; [by left|]. right.
    destruct (Z.ltb_spec c (cols graph)); [by left|lia].
Qed.

Lemma segment_line_above (input : Mat) (path : list Node) :
  segment_line input path = segment_above_boundary input path.
Proof. reflexivity. Qed.

Lemma page5_well_formed : well_formed page5.
Proof. repeat split; cbn; lia. Qed.

Lemma slope5_clear : clear_of_last_column page5 slope5.
Proof.
  intros r c H. unfold slope5 in H.
  repeat (apply elem_of_cons in H as [[= -> ->]|H]; [cbn; lia|]).
  by apply elem_of_nil in H.
Qed.

Lemma blank2_no_ink : no_ink blank2.
Proof.
  intros i j [Hi Hj]. cbn in Hi, Hj.
  assert (i = 0 \/ i = 1) as [-> | ->] by lia;
    assert (j = 0 \/ j = 1) as [-> | ->] by lia; vm_compute; discriminate.
Qed.

Lemma dot2_binary (i j : Z) :
  inside dot2 i j -> at_uchar dot2 i j = 0 \/ at_uchar dot2 i j = 255.
Proof.
  intros [Hi Hj]. cbn in Hi, Hj.
  assert (i = 0 \/ i = 1) as [-> | ->] by lia;
    assert (j = 0 \/ j = 1) as [-> | ->] by lia; vm_compute; auto.
Qed.

(** X1: on a well-formed image, for a boundary whose nodes are in bounds
    and not in the last column, [segment_above_boundary] (and
    [segment_line], which is the same computation) sets a pixel of the
    image to 255 exactly when it lies in the column of a node or the next
    one, at the node's row or below; every other pixel keeps its value. *)
Theorem lower_painting_pixels (m : Mat) (B : list Node) (i j : Z) :
  well_formed m -> clear_of_last_column m B -> inside m i j ->
  segment_line m B = segment_above_boundary m B /\
  (at_or_below B i j -> at_uchar (segment_above_boundary m B) i j = 255) /\
  (~ at_or_below B i j ->
   at_uchar (segment_above_boundary m B) i j = at_uchar m i j).
Proof.
  intros Hwf HB Hij. split; [reflexivity|].
  unfold segment_above_boundary.
  change (paint m (segment_above_boundary_writes m B))
    with (write_all 255 m (segment_above_boundary_writes m B)).
  rewrite at_write_all; [|done| |done].
  - split.
    + intros (r & c & Hn & Hr & Hj). rewrite decide_True; [done|].
      apply elem_of_above_writes. exists r, c. destruct (HB r c Hn), Hij.
      repeat split; [done|lia|lia|]. destruct Hj; [by left|right; lia].
    + intros Hno. rewrite decide_False; [done|].
      intros (r & c & Hn & Hr & Hj)%elem_of_above_writes. apply Hno.
      exists r, c. repeat split; [done|lia|]. destruct Hj; [by left|right; lia].
  - intros a b (r & c & Hn & Hr & Hj)%elem_of_above_writes.
    destruct (HB r c Hn). unfold inside. lia.
Qed.

Lemma lower_painting_pixels_witness :
  well_formed page5 /\ clear_of_last_column page5 slope5 /\ inside page5 2 1 /\
  (segment_line page5 slope5 = segment_above_boundary page5 slope5 /\
   (at_or_below slope5 2 1 ->
    at_uchar (segment_above_boundary page5 slope5) 2 1 = 255) /\
   (~ at_or_below slope5 2 1 ->
    at_uchar (segment_above_boundary page5 slope5) 2 1 = at_uchar page5 2 1)).
Proof.
  assert (inside page5 2 1) as Hin by (split; cbn; lia).
  split; [exact page5_well_formed|]. split; [exact slope5_clear|].
  split; [exact Hin|].
  exact (lower_painting_pixels page5 slope5 2 1 page5_well_formed slope5_clear Hin).
Defined.

(** X2: under the same conditions [segment_below_boundary] sets a pixel to
    255 exactly when it lies in the column of a node or the next one, at
    the node's row or above; every other pixel keeps its value. *)
Theorem segment_below_boundary_pixels (m : Mat) (B : list Node) (i j : Z) :
  well_formed m -> clear_of_last_column m B -> inside m i j ->
  (at_or_above B i j -> at_uchar (segment_below_boundary m B) i j = 255) /\
  (~ at_or_above B i j ->
   at_uchar (segment_below_boundary m B) i j = at_uchar m i j).
Proof.
  intros Hwf HB Hij. unfold segment_below_boundary.
  change (paint m (segment_below_boundary_writes m B))
    with (write_all 255 m (segment_below_boundary_writes m B)).
  rewrite at_write_all; [|done| |done].
  - split.
    + intros (r & c & Hn & Hr & Hj). rewrite decide_True; [done|].
      apply elem_of_below_writes. exists r, c. destruct (HB r c Hn), Hij.
      repeat split; [done|lia|lia|]. destruct Hj; [by left|right; lia].
    + intros Hno. rewrite decide_False; [done|].
      intros (r & c & Hn & Hr & Hj)%elem_of_below_writes. apply Hno.
      exists r, c. repeat split; [done|lia|]. destruct Hj; [by left|right; lia].
  - intros a b (r & c & Hn & Hr & Hj)%elem_of_below_writes.
    destruct (HB r c Hn). unfold inside. lia.
Qed.

Lemma segment_below_boundary_pixels_witness :
  well_formed page5 /\ clear_of_last_column page5 slope5 /\ inside page5 0 1 /\
  ((at_or_above slope5 0 1 ->
    at_uchar (segment_below_boundary page5 slope5) 0 1 = 255) /\
   (~ at_or_above slope5 0 1 ->
    at_uchar (segment_below_boundary page5 slope5) 0 1 = at_uchar page5 0 1)).
Proof.
  assert (inside page5 0 1) as Hin by (split; cbn; lia).
  split; [exact page5_well_formed|]. split; [exact slope5_clear|].
  split; [exact Hin|].
  exact (segment_below_boundary_pixels page5 slope5 0 1 page5_well_formed
           slope5_clear Hin).
Defined.

(** X3: under the same conditions [draw_path] sets to 0 exactly the pixels
    of the path's nodes and their right-hand neighbours, and leaves every
    other pixel of the map as it was. *)
Theorem draw_path_pixels (m : Mat) (path : list Node) (i j : Z) :
  well_formed m -> clear_of_last_column m path -> inside m i j ->
  (on_stroke path i j -> at_uchar (draw_path m path) i j = 0) /\
  (~ on_stroke path i j -> at_uchar (draw_path m path) i j = at_uchar m i j).
Proof.
  intros Hwf HB Hij. unfold draw_path.
  change (fold_left _ (draw_path_writes m path) m)
    with (write_all 0 m (draw_path_writes m path)).
  rewrite at_write_all; [|done| |done].
  - split.
    + intros (c & Hn & Hj). rewrite decide_True; [done|].
      apply elem_of_draw_path_writes. exists c. destruct (HB i c Hn).
      split; [done|]. destruct Hj; [by left|right; lia].
    + intros Hno. rewrite decide_False; [done|].
      intros (c & Hn & Hj)%elem_of_draw_path_writes. apply Hno.
      exists c. split; [done|]. destruct Hj; [by left|right; lia].
  - intros a b (c & Hn & Hj)%elem_of_draw_path_writes.
    destruct (HB a c Hn). unfold inside. lia.
Qed.

Lemma draw_path_pixels_witness :
  well_formed page5 /\ clear_of_last_column page5 slope5 /\ inside page5 2 2 /\
  ((on_stroke slope5 2 2 -> at_uchar (draw_path page5 slope5) 2 2 = 0) /\
   (~ on_stroke slope5 2 2 ->
    at_uchar (draw_path page5 slope5) 2 2 = at_uchar page5 2 2)).
Proof.
  assert (inside page5 2 2) as Hin by (split; cbn; lia).
  split; [exact page5_well_formed|]. split; [exact slope5_clear|].
  split; [exact Hin|].
  exact (draw_path_pixels page5 slope5 2 2 page5_well_formed slope5_clear Hin).
Defined.

Lemma above_writes_painted (m : Mat) (ws : list (Z * Z)) (B : list Node) :
  segment_above_boundary_writes (paint m ws) B = segment_above_boundary_writes m B.
Proof.
  unfold segment_above_boundary_writes, stroke.
  by destruct (paint_shape ws m) as [-> ->].
Qed.

Lemma below_writes_painted (m : Mat) (ws : list (Z * Z)) (B : list Node) :
  segment_below_boundary_writes (paint m ws) B = segment_below_boundary_writes m B.
Proof.
  unfold segment_below_boundary_writes, stroke.
  by destruct (paint_shape ws m) as [_ ->].
Qed.

(** X4: painting is idempotent: running [segment_above_boundary], or
    [segment_below_boundary], a second time with the same boundary changes
    nothing. *)
Theorem painting_idempotent (m : Mat) (B : list Node) :
  segment_above_boundary (segment_above_boundary m B) B = segment_above_boundary m B /\
  segment_below_boundary (segment_below_boundary m B) B = segment_below_boundary m B.
Proof.
  unfold segment_above_boundary, segment_below_boundary.
  rewrite above_writes_painted, below_writes_painted.
  split; by apply (write_all_again 255).
Qed.

(** X5: the two painters commute: erasing below the lower boundary and
    then above the upper one, as the two-boundary [segment_text_line] does,
    gives the same image as the other order. *)
Theorem painting_order_irrelevant (m : Mat) (L U : list Node) :
  segment_below_boundary (segment_above_boundary m L) U
  = segment_above_boundary (segment_below_boundary m U) L.
Proof.
  unfold segment_above_boundary, segment_below_boundary.
  rewrite above_writes_painted, below_writes_painted.
  apply (write_all_swap 255).
Qed.

(** ** Cropping *)

Lemma zrange_length lo hi : length (zrange lo hi) = Z.to_nat (hi - lo).
Proof. unfold zrange. by rewrite length_map, length_seq. Qed.

Lemma zrange_lookup lo hi (n : nat) :
  (n < Z.to_nat (hi - lo))%nat -> zrange lo hi !! n = Some (lo + Z.of_nat n).
Proof.
  intros Hn. unfold zrange. rewrite list_lookup_fmap, lookup_seq_lt by done.
  done.
Qed.

(** Looking up in a concatenation of rows that all have length [k]. *)
Lemma lookup_flat_map_rows {A B : Type} (f : A -> list B) (l : list A)
    (k n m : nat) (a : A) :
  (forall x, x ∈ l -> length (f x) = k) ->
  l !! n = Some a -> (m < k)%nat ->
  flat_map f l !! (n * k + m)%nat = f a !! m.
Proof.
  revert n. induction l as [|x l IH]; intros n Hlen Hn Hm; [done|].
  cbn [flat_map]. destruct n as [|n].
  - injection Hn as ->. cbn. rewrite lookup_app_l; [done|].
    rewrite (Hlen a); [done|left].
  - cbn in Hn. rewrite lookup_app_r; rewrite (Hlen x) by left; [|lia].
    replace (S n * k + m - k)%nat with (n * k + m)%nat by lia.
    apply IH; [|done|done]. intros y Hy. apply Hlen. by right.
Qed.

Lemma length_flat_map_rows {A B : Type} (f : A -> list B) (l : list A) (k : nat) :
  (forall x, x ∈ l -> length (f x) = k) ->
  length (flat_map f l) = (length l * k)%nat.
Proof.
  induction l as [|x l IH]; intros Hlen; [done|].
  cbn [flat_map length]. rewrite length_app, IH.
  - rewrite (Hlen x); [lia|left].
  - intros y Hy. apply Hlen. by right.
Qed.

Lemma extract_bounding_box_Some (input : Mat) (x y width height : Z) (out : Mat) :
  extract_bounding_box input x y width height = Some out ->
  0 <= x /\ 0 <= width /\ x + width <= cols input /\
  0 <= y /\ 0 <= height /\ y + height <= rows input.
Proof.
  unfold extract_bounding_box.
  repeat match goal with
         | |- context [?a <=? ?b] => destruct (Z.leb_spec a b)
         end; cbn [andb]; done.
Qed.

Lemma crop_reads (input : Mat) (x y width height : Z)
    (out : Mat) :
  extract_bounding_box input x y width height = Some out ->
  0 < width -> 0 < height ->
  well_formed out /\ rows out = height /\ cols out = width /\
  forall i j, 0 <= i < height -> 0 <= j < width ->
              at_uchar out i j = at_uchar input (y + i) (x + j).
Proof.
  intros Hbox Hw Hh.
  pose proof (extract_bounding_box_Some _ _ _ _ _ _ Hbox) as Hin.
  unfold extract_bounding_box in Hbox.
  destruct (_ && _); [|done].
  destruct (Z.eqb_spec width 0); [lia|]. destruct (Z.eqb_spec height 0); [lia|].
  cbn [orb] in Hbox. injection Hbox as <-.
  set (row := fun i => map (at_uchar input i) (zrange x (x + width))).
  assert (forall i, i ∈ zrange y (y + height) ->
                    length (row i) = Z.to_nat width) as Hrow.
  { intros i _. unfold row. rewrite length_map, zrange_length. f_equal. lia. }
  split; [|split; [done|split; [done|]]].
  - unfold well_formed. cbn [rows cols data]. split; [lia|]. split; [lia|].
    rewrite (length_flat_map_rows row _ (Z.to_nat width)) by done.
    rewrite zrange_length. nia.
  - intros i j Hi Hj. unfold at_uchar at 1, offset. cbn [rows cols data].
    assert (0 <= i * width) by (apply Z.mul_nonneg_nonneg; lia).
    destruct (Z.ltb_spec (i * width + j) 0); [lia|].
    replace (Z.to_nat (i * width + j))
      with (Z.to_nat i * Z.to_nat width + Z.to_nat j)%nat by nia.
    rewrite (lookup_flat_map_rows row _ (Z.to_nat width) _ _ (y + i)); [|done| |lia].
    + unfold row. rewrite list_lookup_fmap, zrange_lookup by lia. cbn.
      f_equal. lia.
    + rewrite zrange_lookup by lia. f_equal. lia.
Qed.

(** X6: a crop that succeeds with positive width and height is a
    well-formed image of that height and width whose pixel [(i, j)] is
    pixel [(y + i, x + j)] of the source. *)
Theorem extract_bounding_box_pixels (input : Mat) (x y width height : Z)
    (out : Mat) :
  extract_bounding_box input x y width height = Some out ->
  0 < width -> 0 < height ->
  well_formed out /\ rows out = height /\ cols out = width /\
  forall i j, 0 <= i < height -> 0 <= j < width ->
              at_uchar out i j = at_uchar input (y + i) (x + j).
Proof. apply crop_reads. Qed.

Lemma extract_bounding_box_pixels_witness :
  exists out,
    extract_bounding_box page5 1 1 2 3 = Some out /\ 0 < 2 /\ 0 < 3 /\
    (well_formed out /\ rows out = 3 /\ cols out = 2 /\
     forall i j, 0 <= i < 3 -> 0 <= j < 2 ->
                 at_uchar out i j = at_uchar page5 (1 + i) (1 + j)).
Proof.
  eexists. split; [vm_compute; reflexivity|]. split; [lia|]. split; [lia|].
  apply (extract_bounding_box_pixels page5 1 1 2 3);
    [vm_compute; reflexivity|lia|lia].
Defined.

(** Two well-formed images of one shape with the same pixels are equal. *)
Lemma Mat_ext (m m' : Mat) :
  well_formed m -> well_formed m' -> rows m = rows m' -> cols m = cols m' ->
  (forall i j, inside m i j -> at_uchar m i j = at_uchar m' i j) ->
  m = m'.
Proof.
  destruct m as [r c d], m' as [r' c' d']. cbn [rows cols].
  intros (Hr & Hc & Hlen) (_ & _ & Hlen') <- <- Hpix. cbn [rows cols data] in *.
  f_equal. apply list_eq_same_length with (length d); [lia|done|].
  intros k v v' Hk Hv Hv'.
  assert (0 < c) as Hcpos by nia.
  pose proof (Hpix (Z.of_nat k / c) (Z.of_nat k mod c)) as H.
  unfold inside, at_uchar, offset in H. cbn [rows cols data] in H.
  pose proof (Z.div_mod (Z.of_nat k) c ltac:(lia)) as Hdm.
  pose proof (Z.mod_pos_bound (Z.of_nat k) c Hcpos) as Hmod.
  assert (0 <= Z.of_nat k / c) by (apply Z.div_pos; lia).
  assert (Z.of_nat k / c < r).
  { apply Z.div_lt_upper_bound; [done|]. nia. }
  replace (Z.of_nat k / c * c + Z.of_nat k mod c) with (Z.of_nat k) in H by lia.
  destruct (Z.ltb_spec (Z.of_nat k) 0); [lia|].
  rewrite Nat2Z.id, Hv, Hv' in H. apply H. lia.
Qed.

(** X7: cropping a well-formed image with pixels to its full extent gives
    the image back. *)
Theorem extract_bounding_box_whole (m : Mat) :
  well_formed m -> 0 < rows m -> 0 < cols m ->
  extract_bounding_box m 0 0 (cols m) (rows m) = Some m.
Proof.
  intros Hwf Hr Hc.
  destruct (extract_bounding_box_shape m 0 0 (cols m) (rows m))
    as (out & Hout & _); [lia..|].
  destruct (crop_reads m 0 0 (cols m) (rows m) out Hout Hc Hr)
    as (Hwf' & Hrows & Hcols & Hpix).
  rewrite Hout. f_equal. apply Mat_ext; try done.
  intros i j [Hi Hj]. rewrite Hrows in Hi. rewrite Hcols in Hj.
  rewrite Hpix by done. f_equal; lia.
Qed.

Lemma extract_bounding_box_whole_witness :
  well_formed page5 /\ 0 < rows page5 /\ 0 < cols page5 /\
  extract_bounding_box page5 0 0 (cols page5) (rows page5) = Some page5.
Proof.
  split; [exact page5_well_formed|]. split; [cbn; lia|]. split; [cbn; lia|].
  apply (extract_bounding_box_whole page5 page5_well_formed); cbn; lia.
Defined.

(** ** Ink rows, crops in the upper role, pages without ink *)

Lemma zrange_down_cons hi lo :
  lo <= hi -> zrange_down hi lo = hi :: zrange_down (hi - 1) lo.
Proof.
  intros H. unfold zrange_down.
  replace (Z.to_nat (hi - lo + 1)) with (S (Z.to_nat (hi - 1 - lo + 1))) by lia.
  cbn [seq map]. f_equal; [lia|].
  rewrite <- seq_shift, map_map. apply map_ext. intros k. lia.
Qed.

Lemma zrange_down_nil hi lo : hi < lo -> zrange_down hi lo = [].
Proof.
  intros H. unfold zrange_down.
  replace (Z.to_nat (hi - lo + 1)) with O by lia. done.
Qed.

Lemma find_zrange_down_first (f : Z -> bool) (hi lo t : Z) :
  find f (zrange_down hi lo) = Some t ->
  lo <= t <= hi /\ f t = true /\ forall i, t < i <= hi -> f i = false.
Proof.
  remember (Z.to_nat (hi - lo + 1)) as n eqn:Hn. revert hi Hn.
  induction n as [|n IH]; intros hi Hn.
  - rewrite zrange_down_nil by lia. discriminate.
  - rewrite zrange_down_cons by lia. cbn [find]. destruct (f hi) eqn:Hf.
    + intros [= <-]. repeat split; [lia|lia|done|lia].
    + intros H. apply IH in H as (H1 & H2 & H3); [|lia].
      repeat split; [lia|lia|done|]. intros i Hi.
      destruct (decide (i = hi)) as [->|]; [done|apply H3; lia].
Qed.

Lemma row_has_ink_down_true (input : Mat) (i : Z) :
  row_has_ink input (zrange_down (cols input - 1) 0) i = true <->
  exists j, 0 <= j < cols input /\ at_uchar input i j = 0.
Proof.
  unfold row_has_ink. rewrite existsb_exists. split.
  - intros (j & Hj & Hz). exists j. split; [|lia].
    apply list_elem_of_In, elem_of_zrange_down in Hj. lia.
  - intros (j & Hj & Hz). exists j. split; [|lia].
    apply list_elem_of_In, elem_of_zrange_down. lia.
Qed.

Lemma row_has_ink_down_false (input : Mat) (i j : Z) :
  row_has_ink input (zrange_down (cols input - 1) 0) i = false ->
  0 <= j < cols input -> at_uchar input i j <> 0.
Proof.
  intros Hf Hj Hz.
  assert (row_has_ink input (zrange_down (cols input - 1) 0) i = true) as Ht
    by (apply row_has_ink_down_true; eauto).
  congruence.
Qed.

(** [lowest_pixel_row] finds the bottommost ink row; it answers 0 both for
    ink in row 0 and for a page without ink. *)
Lemma lowest_pixel_row_bottommost (input : Mat) :
  is_bottommost_ink_row input (lowest_pixel_row input) /\
  (no_ink input -> lowest_pixel_row input = 0).
Proof.
  unfold lowest_pixel_row, is_bottommost_ink_row.
  destruct (find _ (zrange_down (rows input - 1) 0)) as [t|] eqn:Hfind.
  - apply find_zrange_down_first in Hfind as (H1 & H2 & H3).
    apply row_has_ink_down_true in H2 as (j & Hj & Hz). split; [split|].
    + intros i j' Hi Hj'. eapply row_has_ink_down_false; [apply H3; lia|done].
    + destruct (decide (t = 0)) as [->|]; [by left|right].
      split; [lia|eauto].
    + intros Hno. destruct (Hno t j); [|done]. unfold inside. lia.
  - split; [|done]. split; [|by left]. intros i j Hi Hj.
    eapply row_has_ink_down_false; [|done].
    eapply find_none; [exact Hfind|].
    apply list_elem_of_In, elem_of_zrange_down. lia.
Qed.

Lemma highest_pixel_row_no_ink (input : Mat) :
  0 <= rows input -> no_ink input -> highest_pixel_row input = rows input.
Proof.
  intros Hr Hno.
  destruct (highest_pixel_row_topmost input) as [_ [->|(Ht & j & Hj & Hz)]]; [done|].
  destruct (Hno (highest_pixel_row input) j); [|done]. by split.
Qed.



Lemma extract_bounding_box_negative (input : Mat) (x y width height : Z) :
  height < 0 -> extract_bounding_box input x y width height = None.
Proof.
  intros H. unfold extract_bounding_box.
  destruct (Z.leb_spec 0 height); [lia|]. by rewrite !andb_false_r.
Qed.

(** X9: on a page without ink the single-boundary projector produces no
    line image with pixels, whatever the in-bounds boundary: in the lower
    role the crop is refused, in the upper role it is refused or empty. *)
Theorem single_boundary_blank_page (uninit : Z) (input : Mat) (B : list Node) :
  0 <= rows input -> no_ink input -> B <> [] ->
  (forall n, n ∈ B -> 0 <= n.1 < rows input) ->
  segment_text_line1 uninit input true B = None /\
  (segment_text_line1 uninit input false B = None \/
   segment_text_line1 uninit input false B = Some (mkMat 0 0 [])).
Proof.
  intros Hr Hno HB Hin. split.
  - unfold segment_text_line1. rewrite (highest_pixel_row_no_ink input Hr Hno).
    destruct (lowest_boundary_pos_max uninit B HB) as [(n & Hn & <-) _].
    rewrite extract_bounding_box_negative; [reflexivity|]. apply Hin in Hn. lia.
  - unfold segment_text_line1.
    rewrite (proj2 (lowest_pixel_row_bottommost input) Hno).
    destruct (highest_boundary_pos_min uninit B HB) as [(n & Hn & <-) _].
    apply Hin in Hn.
    destruct (decide (n.1 = 0)) as [->|Hne].
    + unfold extract_bounding_box. cbn [Z.sub Z.opp Z.add Z.eqb orb].
      rewrite orb_true_r. destruct (_ && _); [right|left]; reflexivity.
    + left. rewrite extract_bounding_box_negative; [reflexivity|lia].
Qed.

Lemma single_boundary_blank_page_witness :
  0 <= rows blank2 /\ no_ink blank2 /\ [(0, 0)] <> ([] : list Node) /\
  (forall n : Node, n ∈ [(0, 0)] -> 0 <= n.1 < rows blank2) /\
  (segment_text_line1 0 blank2 true [(0, 0)] = None /\
   (segment_text_line1 0 blank2 false [(0, 0)] = None \/
    segment_text_line1 0 blank2 false [(0, 0)] = Some (mkMat 0 0 []))).
Proof.
  assert (forall n : Node, n ∈ [(0, 0)] -> 0 <= n.1 < rows blank2) as Hin.
  { intros n Hn. apply list_elem_of_singleton in Hn as ->. cbn. lia. }
  split; [cbn; lia|]. split; [exact blank2_no_ink|]. split; [discriminate|].
  split; [exact Hin|].
  apply (single_boundary_blank_page 0 blank2 [(0, 0)]);
    [cbn; lia|exact blank2_no_ink|discriminate|exact Hin].
Defined.

(** Every pixel of an image written by [segment_text_line] is 0 or 255. *)
Lemma times255_binary (m : Mat) : Forall (fun v => v = 0 \/ v = 255) (data (times255 m)).
Proof.
  unfold times255. cbn [data]. apply Forall_forall. intros v Hv.
  apply list_elem_of_fmap in Hv as (w & -> & _). lia.
Qed.

(** X10: every pixel of an image that either overload of
    [segment_text_line] hands to [imwrite] is 0 or 255. *)
Theorem line_image_binary (uninit uninit' : Z) (input : Mat) (role : bool)
    (B L U : list Node) (out : Mat) :
  segment_text_line1 uninit input role B = Some out \/
  segment_text_line2 uninit uninit' input L U = Some out ->
  Forall (fun v => v = 0 \/ v = 255) (data out).
Proof.
  intros [H|H].
  - unfold segment_text_line1 in H.
    destruct role; apply fmap_Some in H as (m & _ & ->); apply times255_binary.
  - unfold segment_text_line2 in H.
    apply fmap_Some in H as (m & _ & ->). apply times255_binary.
Qed.

Lemma line_image_binary_witness :
  exists out,
    segment_text_line1 0 page5 true slope5 = Some out /\
    Forall (fun v => v = 0 \/ v = 255) (data out).
Proof.
  eexists. split; [vm_compute; reflexivity|].
  apply (line_image_binary 0 0 page5 true slope5 [] []).
  left. vm_compute. reflexivity.
Defined.

(** X11: for a boundary with nodes, [highest_boundary_pos] and
    [lowest_boundary_pos] do not depend on what their uninitialised locals
    held; the first is at most the second, and every node's row lies
    between them. *)
Theorem boundary_extremes (uninit uninit' : Z) (B : list Node) :
  B <> [] ->
  highest_boundary_pos uninit B = highest_boundary_pos uninit' B /\
  lowest_boundary_pos uninit B = lowest_boundary_pos uninit' B /\
  highest_boundary_pos uninit B <= lowest_boundary_pos uninit B /\
  forall n, n ∈ B ->
    highest_boundary_pos uninit B <= n.1 <= lowest_boundary_pos uninit B.
Proof.
  intros HB. destruct B as [|[r c] l]; [done|].
  split; [reflexivity|]. split; [reflexivity|].
  destruct (highest_boundary_pos_min uninit ((r, c) :: l)) as [_ Hmin]; [done|].
  destruct (lowest_boundary_pos_max uninit ((r, c) :: l)) as [_ Hmax]; [done|].
  split.
  - pose proof (Hmin (r, c) ltac:(left)) as H1.
    pose proof (Hmax (r, c) ltac:(left)) as H2. cbn [fst] in H1, H2.
    by apply Z.le_trans with r.
  - intros n Hn. split; [by apply Hmin|by apply Hmax].
Qed.

Lemma boundary_extremes_witness :
  slope5 <> [] /\
  highest_boundary_pos 0 slope5 = highest_boundary_pos 7 slope5 /\
  lowest_boundary_pos 0 slope5 = lowest_boundary_pos 7 slope5 /\
  highest_boundary_pos 0 slope5 <= lowest_boundary_pos 0 slope5 /\
  forall n, n ∈ slope5 ->
    highest_boundary_pos 0 slope5 <= n.1 <= lowest_boundary_pos 0 slope5.
Proof.
  split; [discriminate|]. apply (boundary_extremes 0 7 slope5). discriminate.
Defined.

(** ** count_occurences *)

Lemma count_row_shift (p : Z -> bool) (cs : list Z) (c : Z) :
  fold_left (fun count j => if p j then count + 1 else count) cs c
  = c + fold_left (fun count j => if p j then count + 1 else count) cs 0.
Proof.
  revert c. induction cs as [|j cs IH]; intros c; cbn [fold_left]; [lia|].
  rewrite (IH (if p j then c + 1 else c)), (IH (if p j then 0 + 1 else 0)).
  destruct (p j); lia.
Qed.

Lemma count_row_bounds (p : Z -> bool) (cs : list Z) :
  0 <= fold_left (fun count j => if p j then count + 1 else count) cs 0
    <= Z.of_nat (length cs).
Proof.
  induction cs as [|j cs IH]; cbn [fold_left length]; [lia|].
  rewrite count_row_shift. destruct (p j); lia.
Qed.

Lemma count_row_split (p q : Z -> bool) (cs : list Z) :
  (forall j, j ∈ cs -> p j = negb (q j)) ->
  fold_left (fun count j => if p j then count + 1 else count) cs 0
  + fold_left (fun count j => if q j then count + 1 else count) cs 0
  = Z.of_nat (length cs).
Proof.
  induction cs as [|j cs IH]; intros H; cbn [fold_left length]; [lia|].
  rewrite (count_row_shift p), (count_row_shift q).
  specialize (IH ltac:(intros k Hk; apply H; by right)).
  rewrite (H j) by left. destruct (q j); cbn [negb]; lia.
Qed.

Lemma count_grid_shift (p : Z -> Z -> bool) (rs cs : list Z) (c : Z) :
  count_grid p rs cs c = c + count_grid p rs cs 0.
Proof.
  unfold count_grid. revert c.
  induction rs as [|i rs IH]; intros c; cbn [fold_left]; [lia|].
  rewrite (IH (fold_left _ cs c)), (IH (fold_left _ cs 0)).
  rewrite (count_row_shift (p i) cs c). lia.
Qed.

Lemma count_grid_bounds (p : Z -> Z -> bool) (rs cs : list Z) :
  0 <= count_grid p rs cs 0 <= Z.of_nat (length rs) * Z.of_nat (length cs).
Proof.
  induction rs as [|i rs IH]; [cbn; lia|].
  change (count_grid p (i :: rs) cs 0)
    with (count_grid p rs cs (fold_left (fun count j => if p i j then count + 1 else count) cs 0)).
  rewrite count_grid_shift. pose proof (count_row_bounds (p i) cs).
  cbn [length]. lia.
Qed.

Lemma count_grid_split (p q : Z -> Z -> bool) (rs cs : list Z) :
  (forall i j, i ∈ rs -> j ∈ cs -> p i j = negb (q i j)) ->
  count_grid p rs cs 0 + count_grid q rs cs 0
  = Z.of_nat (length rs) * Z.of_nat (length cs).
Proof.
  induction rs as [|i rs IH]; intros H; [cbn; lia|].
  change (count_grid p (i :: rs) cs 0)
    with (count_grid p rs cs (fold_left (fun count j => if p i j then count + 1 else count) cs 0)).
  change (count_grid q (i :: rs) cs 0)
    with (count_grid q rs cs (fold_left (fun count j => if q i j then count + 1 else count) cs 0)).
  rewrite (count_grid_shift p), (count_grid_shift q).
  pose proof (count_row_split (p i) (q i) cs) as Hrow.
  specialize (IH ltac:(intros a b Ha Hb; apply H; [by right|done])).
  specialize (Hrow ltac:(intros j Hj; apply H; [left|done])).
  cbn [length]. lia.
Qed.

(** X12: [count_occurences] lies between 0 and the number of pixels, and
    [num] is compared as an [uchar]: [num + 256] gives the same count. *)
Theorem count_occurences_range (input : Mat) (num : Z) :
  0 <= rows input -> 0 <= cols input ->
  0 <= count_occurences input num <= rows input * cols input /\
  count_occurences input (num + 256) = count_occurences input num.
Proof.
  intros Hr Hc. split.
  - pose proof (count_grid_bounds (fun i j => at_uchar input i j =? num mod 256)
                  (zrange 0 (rows input)) (zrange 0 (cols input))) as H.
    rewrite !zrange_length in H. unfold count_occurences, count_grid in *. lia.
  - unfold count_occurences.
    replace ((num + 256) mod 256) with (num mod 256); [done|].
    by rewrite <- (Z_mod_plus_full num 1 256).
Qed.

Lemma count_occurences_range_witness :
  0 <= rows page5 /\ 0 <= cols page5 /\
  0 <= count_occurences page5 0 <= rows page5 * cols page5 /\
  count_occurences page5 (0 + 256) = count_occurences page5 0.
Proof.
  split; [cbn; lia|]. split; [cbn; lia|].
  apply (count_occurences_range page5 0); cbn; lia.
Defined.

(** X13: on an image whose pixels are all 0 or 255, the count of 0 and
    the count of 255 add up to the number of pixels. *)
Theorem count_occurences_binary (input : Mat) :
  0 <= rows input -> 0 <= cols input ->
  (forall i j, inside input i j ->
               at_uchar input i j = 0 \/ at_uchar input i j = 255) ->
  count_occurences input 0 + count_occurences input 255
  = rows input * cols input.
Proof.
  intros Hr Hc Hbin.
  pose proof (count_grid_split (fun i j => at_uchar input i j =? 0 mod 256)
                (fun i j => at_uchar input i j =? 255 mod 256)
                (zrange 0 (rows input)) (zrange 0 (cols input))) as H.
  rewrite !zrange_length in H. unfold count_occurences, count_grid in *.
  rewrite H; [lia|]. intros i j Hi%elem_of_zrange Hj%elem_of_zrange.
  change (0 mod 256) with 0. change (255 mod 256) with 255.
  destruct (Hbin i j) as [->| ->]; [unfold inside; lia|done|done].
Qed.

Lemma count_occurences_binary_witness :
  0 <= rows dot2 /\ 0 <= cols dot2 /\
  (forall i j, inside dot2 i j ->
               at_uchar dot2 i j = 0 \/ at_uchar dot2 i j = 255) /\
  count_occurences dot2 0 + count_occurences dot2 255 = rows dot2 * cols dot2.
Proof.
  split; [cbn; lia|]. split; [cbn; lia|]. split; [exact dot2_binary|].
  apply (count_occurences_binary dot2); [cbn; lia|cbn; lia|exact dot2_binary].
Defined.

(** ** The band of the two-boundary projector *)

Lemma at_times255 (m : Mat) (i j : Z) :
  at_uchar (times255 m) i j = Z.min 255 (Z.max 0 (at_uchar m i j * 255)).
Proof.
  unfold at_uchar, times255, offset. cbn [rows cols data].
  destruct (_ <? 0); [done|].
  rewrite list_lookup_fmap. by destruct (data m !! _).
Qed.

(** A rectangle that starts above the image, has a negative height or
    ends below the image is refused. *)
Lemma extract_bounding_box_outside (input : Mat) (x y width height : Z) :
  y < 0 \/ height < 0 \/ rows input < y + height ->
  extract_bounding_box input x y width height = None.
Proof.
  intros H. unfold extract_bounding_box.
  destruct (Z.leb_spec 0 y), (Z.leb_spec 0 height),
    (Z.leb_spec (y + height) (rows input));
    rewrite ?andb_false_r; cbn [andb]; try done; lia.
Qed.

Lemma painted_shape (input : Mat) (L U : list Node) :
  rows (segment_below_boundary (segment_above_boundary input L) U) = rows input /\
  cols (segment_below_boundary (segment_above_boundary input L) U) = cols input.
Proof.
  unfold segment_below_boundary, segment_above_boundary.
  destruct (paint_shape (segment_below_boundary_writes
              (paint input (segment_above_boundary_writes input L)) U)
              (paint input (segment_above_boundary_writes input L))) as [-> ->].
  apply paint_shape.
Qed.

(** C8 (amended): for a non-empty upper path [U] and a non-empty lower
    path [L], when [0 <= min_row U < max_row L <= rows] on an image with
    columns, the two-boundary projector produces the band of the painted
    image that starts at row [min_row U]: the line image is exactly
    [max_row L - min_row U] rows high and as wide as the image, and its
    pixel [(i, j)] is pixel [(min_row U + i, j)] of the painted image,
    times 255. When the two rows coincide the image has no pixels; when
    [min_row U] is negative, or [max_row L] is above [min_row U] or below
    the image, the crop throws and there is no band. *)
Theorem two_boundary_band_rows (uninit_hi uninit_lo : Z) (input : Mat)
    (L U : list Node) :
  U <> [] -> L <> [] ->
  exists hi lo,
    is_min_row U hi /\ is_max_row L lo /\
    (0 <= hi -> hi < lo -> lo <= rows input -> 0 < cols input ->
     exists out,
       segment_text_line2 uninit_hi uninit_lo input L U = Some out /\
       well_formed out /\ rows out = lo - hi /\ cols out = cols input /\
       forall i j, 0 <= i < lo - hi -> 0 <= j < cols input ->
         at_uchar out i j
         = Z.min 255 (Z.max 0
             (at_uchar (segment_below_boundary (segment_above_boundary input L) U)
                       (hi + i) j * 255))) /\
    (0 <= hi -> hi = lo -> lo <= rows input -> 0 <= cols input ->
     segment_text_line2 uninit_hi uninit_lo input L U = Some (mkMat 0 0 [])) /\
    (hi < 0 \/ lo < hi \/ rows input < lo ->
     segment_text_line2 uninit_hi uninit_lo input L U = None).
Proof.
  intros HU HL.
  exists (highest_boundary_pos uninit_hi U), (lowest_boundary_pos uninit_lo L).
  split; [by apply highest_boundary_pos_min|].
  split; [by apply lowest_boundary_pos_max|].
  set (hi := highest_boundary_pos uninit_hi U).
  set (lo := lowest_boundary_pos uninit_lo L).
  unfold segment_text_line2. fold hi lo.
  set (painted := segment_below_boundary _ U).
  destruct (painted_shape input L U) as [Hr Hc]. fold painted in Hr, Hc.
  split; [|split].
  - intros H0 Hlt Hrows Hcols.
    destruct (extract_bounding_box_shape painted 0 hi (cols input) (lo - hi))
      as (out & Hbox & _); [lia..|].
    rewrite Hbox. exists (times255 out). split; [done|].
    destruct (crop_reads painted 0 hi (cols input) (lo - hi) out Hbox)
      as (Hwf & Hro & Hco & Hpix); [lia..|].
    split; [|split; [done|split; [done|]]].
    + destruct Hwf as (? & ? & Hlen). unfold well_formed, times255.
      cbn [rows cols data]. by rewrite length_map.
    + intros i j Hi Hj. rewrite at_times255, Hpix by done.
      by replace (0 + j) with j by lia.
  - intros H0 Heq Hrows Hcols. unfold extract_bounding_box. rewrite Hr, Hc.
    repeat match goal with
           | |- context [?a <=? ?b] => destruct (Z.leb_spec a b); [|lia]
           end.
    cbn [andb]. replace (lo - hi) with 0 by lia.
    by rewrite Z.eqb_refl, orb_true_r.
  - intros Hout. rewrite extract_bounding_box_outside; [done|]. rewrite Hr. lia.
Qed.

Lemma two_boundary_band_rows_witness :
  [(1, 0); (1, 1); (1, 2)] <> ([] : list Node) /\
  [(3, 0); (4, 1); (3, 2)] <> ([] : list Node) /\
  segment_text_line2 0 0 page5 [(3, 0); (4, 1); (3, 2)] [(1, 0); (1, 1); (1, 2)]
    = Some (mkMat 3 4 [255; 255; 255; 255;
                       255; 255; 255;   0;
                       255; 255; 255; 255]) /\
  exists hi lo,
    is_min_row [(1, 0); (1, 1); (1, 2)] hi /\
    is_max_row [(3, 0); (4, 1); (3, 2)] lo /\
    (0 <= hi -> hi < lo -> lo <= rows page5 -> 0 < cols page5 ->
     exists out,
       segment_text_line2 0 0 page5 [(3, 0); (4, 1); (3, 2)]
                          [(1, 0); (1, 1); (1, 2)] = Some out /\
       well_formed out /\ rows out = lo - hi /\ cols out = cols page5 /\
       forall i j, 0 <= i < lo - hi -> 0 <= j < cols page5 ->
         at_uchar out i j
         = Z.min 255 (Z.max 0
             (at_uchar (segment_below_boundary
                          (segment_above_boundary page5 [(3, 0); (4, 1); (3, 2)])
                          [(1, 0); (1, 1); (1, 2)])
                       (hi + i) j * 255))) /\
    (0 <= hi -> hi = lo -> lo <= rows page5 -> 0 <= cols page5 ->
     segment_text_line2 0 0 page5 [(3, 0); (4, 1); (3, 2)]
                        [(1, 0); (1, 1); (1, 2)] = Some (mkMat 0 0 [])) /\
    (hi < 0 \/ lo < hi \/ rows page5 < lo ->
     segment_text_line2 0 0 page5 [(3, 0); (4, 1); (3, 2)]
                        [(1, 0); (1, 1); (1, 2)] = None).
Proof.
  split; [discriminate|]. split; [discriminate|].
  split; [vm_compute; reflexivity|].
  apply (two_boundary_band_rows 0 0 page5 [(3, 0); (4, 1); (3, 2)]
                                [(1, 0); (1, 1); (1, 2)]); discriminate.
Defined.

(** C8 as worded fails: with the two paths above exchanged, both still
    non-empty, [min_row U] is 3 and [max_row L] is 1. A band of
    [1 - 3] rows does not exist: the crop throws and the projector
    produces no image. *)
Lemma two_boundary_swapped_no_band :
  is_min_row [(3, 0); (4, 1); (3, 2)] 3 /\
  is_max_row [(1, 0); (1, 1); (1, 2)] 1 /\
  segment_text_line2 0 0 page5 [(1, 0); (1, 1); (1, 2)] [(3, 0); (4, 1); (3, 2)]
    = None.
Proof.
  split; [|split; [|vm_compute; reflexivity]].
  - change 3 with (highest_boundary_pos 0 [(3, 0); (4, 1); (3, 2)]).
    by apply highest_boundary_pos_min.
  - change 1 with (lowest_boundary_pos 0 [(1, 0); (1, 1); (1, 2)]).
    by apply lowest_boundary_pos_max.
Qed.

(** ** Empty boundaries *)

(** C9 (as the code behaves): the projector does not check for an empty
    boundary. With a zero-length path [lowest_boundary_pos] and
    [highest_boundary_pos] return their local variable as it was left
    uninitialised, and on the page [dot2] that value alone decides the
    outcome. In the lower role the value 0 gives an image without pixels,
    1 and 2 give a line image of that many rows, and any other value makes
    the crop throw; in the upper role 0 gives an image without pixels and
    any other value makes the crop throw. *)
Theorem empty_boundary_outcome_by_uninitialised (uninit : Z) :
  lowest_boundary_pos uninit [] = uninit /\
  highest_boundary_pos uninit [] = uninit /\
  segment_text_line1 uninit dot2 true []
    = (if decide (uninit = 0) then Some (mkMat 0 0 [])
       else if decide (uninit = 1) then Some (mkMat 1 2 [0; 255])
       else if decide (uninit = 2) then Some (mkMat 2 2 [0; 255; 255; 255])
       else None) /\
  segment_text_line1 uninit dot2 false []
    = (if decide (uninit = 0) then Some (mkMat 0 0 []) else None).
Proof.
  split; [apply lowest_boundary_pos_nil|].
  split; [apply highest_boundary_pos_nil|].
  assert (segment_text_line1 uninit dot2 true []
          = times255 <$> extract_bounding_box dot2 0 0 2 (uninit - 0)) as ->
    by reflexivity.
  assert (segment_text_line1 uninit dot2 false []
          = times255 <$> extract_bounding_box dot2 0 uninit 2 (0 - uninit)) as ->
    by reflexivity.
  split.
  - repeat case_decide; subst; try reflexivity.
    rewrite extract_bounding_box_outside; [done|]. cbn [rows dot2]. lia.
  - case_decide; subst; [reflexivity|].
    rewrite extract_bounding_box_outside; [done|]. cbn [rows dot2]. lia.
Qed.

End ProjectorFacts.

(** * File names *)

Module StringFacts.
Import Utils Props.

Lemma prefix_append (a s : string) :
  String.prefix a s = true <-> exists post, s = (a ++ post)%string.
Proof.
  rewrite prefix_correct. revert s. induction a as [|c a IH]; intros s.
  - cbn. split; [intros _; by exists s|]. intros _. by destruct s.
  - destruct s as [|d s]; cbn.
    + split; [done|]. by intros [post H].
    + split.
      * intros [= -> H]. apply IH in H as [post ->]. by exists post.
      * intros [post [= -> ->]]. f_equal. apply IH. by exists post.
Qed.

Lemma occurs_at_0 (needle s : string) :
  occurs_at needle s 0 <-> String.prefix needle s = true.
Proof.
  rewrite prefix_append. split.
  - intros (pre & post & -> & Hlen). destruct pre; [|done]. by exists post.
  - intros [post ->]. by exists ""%string, post.
Qed.

Lemma occurs_at_S (needle : string) (c : ascii) (s : string) (n : nat) :
  occurs_at needle (String c s) (S n) <-> occurs_at needle s n.
Proof.
  split.
  - intros (pre & post & Heq & Hlen). destruct pre as [|d pre]; [done|].
    cbn in Heq, Hlen. injection Heq as -> ->. exists pre, post. split; [done|lia].
  - intros (pre & post & -> & Hlen). exists (String c pre), post. cbn.
    split; [done|lia].
Qed.

Lemma occurs_at_empty (needle : string) (n : nat) :
  occurs_at needle "" n -> n = O.
Proof. intros (pre & post & Heq & <-). by destruct pre. Qed.

(** [string_find] returns the first position at which the needle occurs,
    and [None] exactly when it occurs nowhere. *)
Lemma string_find_spec (needle s : string) :
  match string_find needle s with
  | Some n => occurs_at needle s n /\ forall k, occurs_at needle s k -> (n <= k)%nat
  | None => forall k, ~ occurs_at needle s k
  end.
Proof.
  induction s as [|c s IH]; cbn [string_find].
  - destruct (String.prefix needle "") eqn:Hp.
    + split; [by apply occurs_at_0|]. intros k _. lia.
    + intros k Hk. pose proof (occurs_at_empty _ _ Hk) as ->.
      apply occurs_at_0 in Hk. congruence.
  - destruct (String.prefix needle (String c s)) eqn:Hp.
    + split; [by apply occurs_at_0|]. intros k _. lia.
    + destruct (string_find needle s) as [n|]; cbn.
      * destruct IH as [Hn Hmin]. split; [by apply occurs_at_S|].
        intros [|k] Hk.
        -- apply occurs_at_0 in Hk. congruence.
        -- apply occurs_at_S in Hk. apply Hmin in Hk. lia.
      * intros [|k] Hk.
        -- apply occurs_at_0 in Hk. congruence.
        -- apply occurs_at_S in Hk. by apply (IH k).
Qed.

Lemma string_take_length_append (pre rest : string) :
  string_take (String.length pre) (pre ++ rest) = pre.
Proof.
  induction pre as [|c pre IH].
  - by destruct rest.
  - change (String c pre ++ rest)%string with (String c (pre ++ rest)).
    cbn [String.length string_take]. by rewrite IH.
Qed.

Lemma string_drop_length_append (pre rest : string) :
  string_drop (String.length pre) (pre ++ rest) = rest.
Proof.
  induction pre as [|c pre IH].
  - by destruct rest.
  - change (String c pre ++ rest)%string with (String c (pre ++ rest)).
    cbn [String.length string_drop]. done.
Qed.

Lemma append_assoc (a b c : string) : ((a ++ b) ++ c = a ++ (b ++ c))%string.
Proof.
  induction a as [|x a IH]; [done|].
  change ((String x a ++ b) ++ c)%string with (String x ((a ++ b) ++ c)).
  change (String x a ++ (b ++ c))%string with (String x (a ++ (b ++ c))).
  by rewrite IH.
Qed.

Lemma length_append (a b : string) :
  String.length (a ++ b) = (String.length a + String.length b)%nat.
Proof.
  induction a as [|x a IH]; [done|].
  change (String x a ++ b)%string with (String x (a ++ b)).
  cbn [String.length Nat.add]. by rewrite IH.
Qed.

Lemma string_replace_at (pre rem post repl : string) :
  string_replace (pre ++ rem ++ post) (String.length pre) (String.length rem) repl
  = (pre ++ repl ++ post)%string.
Proof.
  unfold string_replace. rewrite string_take_length_append. f_equal. f_equal.
  rewrite <- length_append, <- append_assoc. apply string_drop_length_append.
Qed.

(** X14: [strreplace] answers true exactly when [rem] occurs in [str], and
    then it has replaced the first occurrence, and only that one, by
    [repl]; otherwise it answers false and leaves [str] as it was. *)
Theorem strreplace_first_occurrence (str rem repl : string) :
  match strreplace str rem repl with
  | (true, str') =>
      exists pre post,
        str = (pre ++ rem ++ post)%string /\
        str' = (pre ++ repl ++ post)%string /\
        forall k, occurs_at rem str k -> (String.length pre <= k)%nat
  | (false, str') => str' = str /\ forall k, ~ occurs_at rem str k
  end.
Proof.
  unfold strreplace. pose proof (string_find_spec rem str) as H.
  destruct (string_find rem str) as [n|]; [|done].
  destruct H as [(pre & post & -> & <-) Hmin]. exists pre, post.
  split; [done|]. split; [apply string_replace_at|done].
Qed.

Lemma string_find_prefix (needle s : string) :
  String.prefix needle s = true -> string_find needle s = Some O.
Proof. intros H. destruct s; cbn [string_find]; by rewrite H. Qed.

(** X15: [strreplace] with a prefix of the string replaces that prefix by
    [repl] (with an empty [repl] the prefix is stripped, which is how the
    image directory is taken off a file name); an empty [rem] is found at
    position 0, so [repl] is put in front of the string. *)
Theorem strreplace_prefix (p s repl : string) :
  strreplace (p ++ s) p repl = (true, (repl ++ s)%string) /\
  strreplace (p ++ s) p "" = (true, s) /\
  strreplace s "" repl = (true, (repl ++ s)%string).
Proof.
  unfold strreplace. split; [|split].
  - rewrite string_find_prefix by (apply prefix_append; eauto).
    f_equal. apply (string_replace_at "" p s repl).
  - rewrite string_find_prefix by (apply prefix_append; eauto).
    f_equal. apply (string_replace_at "" p s "").
  - rewrite string_find_prefix by (apply prefix_append; by exists s).
    reflexivity.
Qed.

(** X16: [infer_dataset] answers "mls" when the file name contains "mls",
    otherwise "saintgall" when it contains that, otherwise "NULL". *)
Theorem infer_dataset_cases (filename : string) :
  (contains "mls" filename /\ infer_dataset filename = "mls"%string) \/
  (~ contains "mls" filename /\ contains "saintgall" filename /\
   infer_dataset filename = "saintgall"%string) \/
  (~ contains "mls" filename /\ ~ contains "saintgall" filename /\
   infer_dataset filename = "NULL"%string).
Proof.
  unfold infer_dataset, contains.
  pose proof (string_find_spec "mls" filename) as H1.
  pose proof (string_find_spec "saintgall" filename) as H2.
  destruct (string_find "mls" filename) as [n|].
  - left. split; [|done]. exists n. apply H1.
  - right. destruct (string_find "saintgall" filename) as [n|].
    + left. split; [by intros [k Hk%H1]|]. split; [|done]. exists n. apply H2.
    + right. split; [by intros [k Hk%H1]|]. split; [by intros [k Hk%H2]|done].
Qed.

End StringFacts.

(** * The best assignment *)

Module StatsFacts.
Import Utils Props DoubleFacts DoubleOrderFacts.

Lemma max_element_loop (rest seen : list float) (st : nat * float * nat) :
  max_state seen st -> (forall y, y ∈ rest -> Double.le y y) ->
  max_state (seen ++ rest)
    (fold_left
       (fun '(largest, value, i) y =>
          if PrimFloat.ltb value y then (i, y, S i) else (largest, value, S i))
       rest st).
Proof.
  revert seen st. induction rest as [|y rest IH]; intros seen [[lg v] i] Hst Hnan.
  - by rewrite app_nil_r.
  - cbn [fold_left]. replace (seen ++ y :: rest) with ((seen ++ [y]) ++ rest)
      by (by rewrite <- app_assoc).
    destruct Hst as (-> & Hlg & Hmax & Hfirst).
    assert (Double.le v v) as Hv.
    { apply (Hmax v). by apply list_elem_of_lookup_2 in Hlg. }
    assert (Double.le y y) as Hy by (apply Hnan; left).
    apply IH; [|intros z Hz; apply Hnan; by right].
    destruct (PrimFloat.ltb v y) eqn:Hlt.
    + split; [by rewrite length_app; cbn; lia|]. split.
      { rewrite lookup_app_r by lia. by rewrite Nat.sub_diag. }
      split.
      * intros z Hz. apply elem_of_app in Hz as [Hz|Hz].
        -- apply (le_trans z v y); [by apply Hmax|by apply lt_le].
        -- apply list_elem_of_singleton in Hz as ->. done.
      * intros k z Hk Hz. rewrite lookup_app_l in Hz by done.
        apply (le_lt_trans z v y); [|done].
        apply Hmax. by apply list_elem_of_lookup_2 in Hz.
    + split; [by rewrite length_app; cbn; lia|]. split.
      { rewrite lookup_app_l; [done|]. by apply lookup_lt_Some in Hlg. }
      split.
      * intros z Hz. apply elem_of_app in Hz as [Hz|Hz]; [by apply Hmax|].
        apply list_elem_of_singleton in Hz as ->. by apply not_lt_le.
      * intros k z Hk Hz. apply lookup_lt_Some in Hlg.
        rewrite lookup_app_l in Hz by lia. by apply (Hfirst k).
Qed.

Lemma max_element_first_max (l : list float) :
  l <> [] -> (forall y, y ∈ l -> Double.le y y) ->
  exists v, l !! max_element l = Some v /\
            (forall y, y ∈ l -> Double.le y v) /\
            (forall k y, (k < max_element l)%nat -> l !! k = Some y -> Double.lt y v).
Proof.
  destruct l as [|x rest]; [done|]. intros _ Hnan. unfold max_element.
  pose proof (max_element_loop rest [x] (O, x, 1%nat)) as H.
  destruct (fold_left _ rest (O, x, 1%nat)) as [[lg v] i].
  cbn [fst]. destruct H as (_ & Hlg & Hmax & Hfirst).
  - split; [done|]. split; [done|]. split.
    + intros y Hy%list_elem_of_singleton. subst y. apply Hnan. left.
    + intros k y Hk. lia.
  - intros y Hy. apply Hnan. by right.
  - exists v. cbn [app] in *. done.
Qed.

(** X17: on hit rates without NaN, when [select_best_assignments] returns,
    the three statistics are those at one position, at which every vector
    has an entry: the first position of the largest hit rate. *)
Theorem select_best_assignments_first_max
    (hitrate line_detection_GT line_detection_R stats : list float)
    (lines : list string) (groudtruth : string) :
  (forall y, y ∈ hitrate -> Double.le y y) ->
  select_best_assignments hitrate line_detection_GT line_detection_R
                          lines groudtruth = Some stats ->
  exists pos h g r,
    stats = [h; g; r] /\
    hitrate !! pos = Some h /\ line_detection_GT !! pos = Some g /\
    line_detection_R !! pos = Some r /\ is_Some (lines !! pos) /\
    (forall y, y ∈ hitrate -> Double.le y h) /\
    (forall k y, (k < pos)%nat -> hitrate !! k = Some y -> Double.lt y h).
Proof.
  intros Hnan Hsel. unfold select_best_assignments in Hsel.
  destruct (hitrate !! max_element hitrate) as [h|] eqn:Hh; [|done].
  destruct (line_detection_GT !! max_element hitrate) as [g|] eqn:Hg; [|done].
  destruct (line_detection_R !! max_element hitrate) as [r|] eqn:Hr; [|done].
  destruct (lines !! max_element hitrate) as [d|] eqn:Hd; [|done].
  cbn in Hsel. injection Hsel as <-.
  assert (hitrate <> []) as Hne by (by intros ->).
  destruct (max_element_first_max hitrate Hne Hnan) as (v & Hv & Hmax & Hfirst).
  assert (v = h) as -> by congruence.
  exists (max_element hitrate), h, g, r. rewrite Hd. done.
Qed.

Lemma select_best_assignments_first_max_witness :
  (forall y, y ∈ [0.5; 0.75; 0.75]%float -> Double.le y y) /\
  exists stats,
    select_best_assignments [0.5; 0.75; 0.75]%float [1; 2; 3]%float
                            [4; 5; 6]%float ["a"; "b"; "c"]%string "b"
      = Some stats /\
    exists pos h g r,
      stats = [h; g; r] /\
      [0.5; 0.75; 0.75]%float !! pos = Some h /\
      [1; 2; 3]%float !! pos = Some g /\ [4; 5; 6]%float !! pos = Some r /\
      is_Some (["a"; "b"; "c"]%string !! pos) /\
      (forall y, y ∈ [0.5; 0.75; 0.75]%float -> Double.le y h) /\
      (forall k y, (k < pos)%nat -> [0.5; 0.75; 0.75]%float !! k = Some y ->
                   Double.lt y h).
Proof.
  assert (forall y, y ∈ [0.5; 0.75; 0.75]%float -> Double.le y y) as Hnan.
  { intros y Hy.
    repeat (apply elem_of_cons in Hy as [->|Hy]; [reflexivity|]).
    by apply elem_of_nil in Hy. }
  split; [exact Hnan|]. eexists. split; [vm_compute; reflexivity|].
  apply (select_best_assignments_first_max _ _ _ _ _ "b" Hnan).
  vm_compute. reflexivity.
Defined.

End StatsFacts.

(** * More on the planner *)

Module PlannerFacts.
Import Astar Props AstarFacts DoubleFacts DoubleOrderFacts.

(** ** Neighbours *)

Lemma elem_of_neighbors (g : Map) (u v : Node) (step : Z) :
  v ∈ neighbors g u step <->
  in_bounds g v = true /\
  exists d, d ∈ directions /\ v = (u.1 + step * d.1, u.2 + step * d.2).
Proof.
  destruct u as [row col]. unfold neighbors.
  rewrite list_elem_of_filter, list_elem_of_fmap. cbn [fst snd]. split.
  - intros [Hb ([dr dc] & -> & Hd)]. split; [done|]. by exists (dr, dc).
  - intros [Hb ([dr dc] & Hd & ->)]. split; [done|]. by exists (dr, dc).
Qed.

Lemma elem_of_directions (d : Node) :
  d ∈ directions <->
  -1 <= d.1 <= 1 /\ -1 <= d.2 <= 1 /\ d <> (0, 0).
Proof.
  destruct d as [dr dc]. unfold directions. cbn [fst snd]. split.
  - intros H.
    repeat (apply elem_of_cons in H as [[= -> ->]|H]; [repeat split; try lia; done|]).
    by apply elem_of_nil in H.
  - intros (Hr & Hc & Hne).
    assert (dr = -1 \/ dr = 0 \/ dr = 1) as [-> | [-> | ->]] by lia;
      assert (dc = -1 \/ dc = 0 \/ dc = 1) as [-> | [-> | ->]] by lia;
      try done; repeat first [by left|right].
Qed.

(** X18: every neighbour [neighbors] returns is in bounds and lies one
    [step] away from the node in one of the eight directions; with a
    non-zero step it is never the node itself; at most eight are
    returned. *)
Theorem neighbors_adjacent (g : Map) (u v : Node) (step : Z) :
  v ∈ neighbors g u step ->
  in_bounds g v = true /\
  (exists dr dc, -1 <= dr <= 1 /\ -1 <= dc <= 1 /\ (dr, dc) <> (0, 0) /\
                 v = (u.1 + step * dr, u.2 + step * dc)) /\
  (step <> 0 -> v <> u) /\
  (length (neighbors g u step) <= 8)%nat.
Proof.
  intros Hv. pose proof Hv as Hv'.
  apply elem_of_neighbors in Hv as [Hb ([dr dc] & Hd & ->)].
  apply elem_of_directions in Hd as (Hr & Hc & Hne). cbn [fst snd] in *.
  split; [done|]. split; [by exists dr, dc|]. split.
  - intros Hstep Heq. destruct u as [r c]. cbn [fst snd] in Heq.
    injection Heq as H1 H2. apply Hne. f_equal; nia.
  - destruct u as [r c]. unfold neighbors.
    etrans; [apply length_filter|]. by rewrite length_map.
Qed.

Lemma neighbors_adjacent_witness :
  (1, 1) ∈ neighbors inked3 (0, 0) 1 /\
  (in_bounds inked3 (1, 1) = true /\
   (exists dr dc, -1 <= dr <= 1 /\ -1 <= dc <= 1 /\ (dr, dc) <> (0, 0) /\
                  ((1, 1) : Node) = (((0, 0) : Node).1 + 1 * dr,
                                     ((0, 0) : Node).2 + 1 * dc)) /\
   (1 <> 0 -> ((1, 1) : Node) <> (0, 0)) /\
   Nat.le (length (neighbors inked3 (0, 0) 1)) 8).
Proof.
  assert ((1, 1) ∈ neighbors inked3 (0, 0) 1) as Hin.
  { apply list_elem_of_In. vm_compute. auto 10. }
  split; [exact Hin|]. exact (neighbors_adjacent inked3 (0, 0) (1, 1) 1 Hin).
Defined.

(** X19: the neighbour relation is symmetric on the grid: a neighbour of a
    node in bounds has that node among its own neighbours. *)
Theorem neighbors_symmetric (g : Map) (u v : Node) (step : Z) :
  in_bounds g u = true -> v ∈ neighbors g u step -> u ∈ neighbors g v step.
Proof.
  intros Hu Hv. apply elem_of_neighbors in Hv as [Hb ([dr dc] & Hd & ->)].
  apply elem_of_neighbors. split; [done|]. exists (- dr, - dc). split.
  - apply elem_of_directions in Hd as (Hr & Hc & Hne). cbn [fst snd] in *.
    apply elem_of_directions. cbn [fst snd]. repeat split; try lia.
    intros [= H1 H2]. apply Hne. f_equal; lia.
  - destruct u as [r c]. cbn [fst snd]. f_equal; lia.
Qed.

Lemma neighbors_symmetric_witness :
  in_bounds inked3 (0, 0) = true /\ (1, 1) ∈ neighbors inked3 (0, 0) 1 /\
  (0, 0) ∈ neighbors inked3 (1, 1) 1.
Proof.
  assert ((1, 1) ∈ neighbors inked3 (0, 0) 1) as Hin.
  { apply list_elem_of_In. vm_compute. auto 10. }
  split; [reflexivity|]. split; [exact Hin|].
  exact (neighbors_symmetric inked3 (0, 0) (1, 1) 1 eq_refl Hin).
Defined.

(** ** PriorityQueue *)

Lemma Node_lt_asym (a b : Node) : Node_lt a b = true -> Node_lt b a = false.
Proof.
  unfold Node_lt. destruct a as [a1 a2], b as [b1 b2]. cbn [fst snd].
  destruct (Z.ltb_spec a1 b1), (Z.ltb_spec b1 a1), (Z.ltb_spec a2 b2),
    (Z.ltb_spec b2 a2); cbn; try done; lia.
Qed.

Lemma Node_lt_false_trans (a b c : Node) :
  Node_lt b a = false -> Node_lt c b = false -> Node_lt c a = false.
Proof.
  unfold Node_lt. destruct a as [a1 a2], b as [b1 b2], c as [c1 c2]. cbn [fst snd].
  destruct (Z.ltb_spec b1 a1), (Z.ltb_spec a1 b1), (Z.ltb_spec b2 a2),
    (Z.ltb_spec c1 b1), (Z.ltb_spec b1 c1), (Z.ltb_spec c2 b2),
    (Z.ltb_spec c1 a1), (Z.ltb_spec a1 c1), (Z.ltb_spec c2 a2);
    cbn; try done; lia.
Qed.

Lemma Element_lt_asym (a b : Element) :
  Element_lt a b = true -> Element_lt b a = false.
Proof.
  unfold Element_lt. destruct (PrimFloat.ltb a.1 b.1) eqn:Hab.
  - intros _. assert (PrimFloat.ltb b.1 a.1 = false) as ->.
    { destruct (PrimFloat.ltb b.1 a.1) eqn:Hba; [|done].
      destruct (le_not_lt a.1 b.1); [by apply lt_le|done]. }
    done.
  - cbn [orb]. intros [Hba Hn]%andb_true_iff. apply negb_true_iff in Hba.
    rewrite Hba. cbn. by apply Node_lt_asym.
Qed.

(** An element that is not below [b], below which [c] is not, is not
    above [c]: the queue order is transitive on priorities without NaN. *)
Lemma Element_lt_false_trans (a b c : Element) :
  Double.le a.1 a.1 -> Double.le b.1 b.1 -> Double.le c.1 c.1 ->
  Element_lt b a = false -> Element_lt c b = false -> Element_lt c a = false.
Proof.
  unfold Element_lt. intros Ha Hb Hc H1 H2.
  apply orb_false_iff in H1 as [H1 H1']. apply orb_false_iff in H2 as [H2 H2'].
  pose proof (not_lt_le _ _ Hb Ha H1) as Hab.
  pose proof (not_lt_le _ _ Hc Hb H2) as Hbc.
  pose proof (le_trans _ _ _ Hab Hbc) as Hac.
  assert (PrimFloat.ltb c.1 a.1 = false) as ->.
  { destruct (PrimFloat.ltb c.1 a.1) eqn:E; [|done]. by destruct (le_not_lt a.1 c.1). }
  cbn [orb]. apply andb_false_iff in H1' as [H1'|H1'].
  - apply negb_false_iff in H1'.
    rewrite (lt_le_trans a.1 b.1 c.1) by done. done.
  - apply andb_false_iff in H2' as [H2'|H2'].
    + apply negb_false_iff in H2'.
      rewrite (le_lt_trans a.1 b.1 c.1) by done. done.
    + rewrite (Node_lt_false_trans a.2 b.2 c.2) by done. apply andb_false_r.
Qed.

Lemma put_perm (e : Node) (p : float) (l : list Element) :
  put e p l ≡ₚ (p, e) :: l.
Proof.
  induction l as [|x l IH]; cbn [put]; [done|].
  destruct (Element_lt (p, e) x); [done|].
  rewrite IH. apply Permutation_swap.
Qed.

Lemma put_ascending (e : Node) (p : float) (l : list Element) :
  Double.le p p -> (forall x, x ∈ l -> Double.le x.1 x.1) ->
  ascending l -> ascending (put e p l).
Proof.
  intros Hp Hnan Hasc. induction Hasc as [|x l Hx Hasc IH]; cbn [put].
  - constructor; [|constructor]. intros y Hy. by apply elem_of_nil in Hy.
  - assert (Double.le x.1 x.1) as Hxx by (apply Hnan; left).
    destruct (Element_lt (p, e) x) eqn:Hlt.
    + constructor; [|by constructor].
      intros y Hy. apply elem_of_cons in Hy as [->|Hy].
      * by apply Element_lt_asym.
      * apply (Element_lt_false_trans (p, e) x y); try done.
        -- apply Hnan. by right.
        -- by apply Element_lt_asym.
        -- by apply Hx.
    + constructor.
      * intros y Hy. rewrite put_perm in Hy.
        apply elem_of_cons in Hy as [->|Hy]; [done|by apply Hx].
      * apply IH. intros y Hy. apply Hnan. by right.
Qed.

Lemma put_not_nil (e : Node) (p : float) (l : list Element) :
  exists q x rest, put e p l = (q, x) :: rest.
Proof.
  destruct l as [|[q x] l]; cbn [put]; [by eauto|].
  destruct (Element_lt (p, e) (q, x)); eauto.
Qed.

(** X20: with priorities that are not NaN, [put] keeps the queue in
    ascending order with the same entries plus the new one, and [get] then
    removes an entry that no other entry is below. *)
Theorem put_then_get_least (e : Node) (p : float) (l : list Element) :
  Double.le p p -> (forall x, x ∈ l -> Double.le x.1 x.1) -> ascending l ->
  ascending (put e p l) /\ put e p l ≡ₚ (p, e) :: l /\
  exists q x rest,
    get (put e p l) = Some (x, rest) /\ put e p l = (q, x) :: rest /\
    forall y, y ∈ rest -> Element_lt y (q, x) = false.
Proof.
  intros Hp Hnan Hasc.
  pose proof (put_ascending e p l Hp Hnan Hasc) as Hasc'.
  split; [done|]. split; [apply put_perm|].
  destruct (put_not_nil e p l) as (q & x & rest & Heq).
  rewrite Heq in *. exists q, x, rest. split; [done|]. split; [done|].
  by inversion Hasc'.
Qed.

Lemma put_then_get_least_witness :
  Double.le 0.5 0.5 /\
  (forall x : Element, x ∈ [(1%float, (0, 1))] -> Double.le x.1 x.1) /\
  ascending [(1%float, (0, 1))] /\
  (ascending (put (0, 0) 0.5 [(1%float, (0, 1))]) /\
   put (0, 0) 0.5 [(1%float, (0, 1))] ≡ₚ (0.5%float, (0, 0)) :: [(1%float, (0, 1))] /\
   exists q x rest,
     get (put (0, 0) 0.5 [(1%float, (0, 1))]) = Some (x, rest) /\
     put (0, 0) 0.5 [(1%float, (0, 1))] = (q, x) :: rest /\
     forall y, y ∈ rest -> Element_lt y (q, x) = false).
Proof.
  assert (forall x : Element, x ∈ [(1%float, (0, 1))] -> Double.le x.1 x.1) as Hnan.
  { intros x Hx. apply list_elem_of_singleton in Hx as ->. reflexivity. }
  assert (ascending [(1%float, (0, 1))]) as Hasc.
  { constructor; [|constructor]. intros x Hx. by apply elem_of_nil in Hx. }
  split; [reflexivity|]. split; [exact Hnan|]. split; [exact Hasc|].
  exact (put_then_get_least (0, 0) 0.5 [(1%float, (0, 1))] eq_refl Hnan Hasc).
Defined.

Lemma index_parents_extends (P : gmap Node Node) (n : Node) :
  P ⊆ (index_parents P n).2 /\
  (forall m v, (index_parents P n).2 !! m = Some v ->
               P !! m = Some v \/ (P !! m = None /\ v = (0, 0))).
Proof.
  unfold index_parents. destruct (P !! n) eqn:Hn; cbn [snd].
  - split; [done|]. by left.
  - split; [by apply insert_subseteq|]. intros m v Hm.
    destruct (decide (n = m)) as [->|Hne].
    + rewrite lookup_insert_eq in Hm. injection Hm as <-. by right.
    + rewrite lookup_insert_ne in Hm by done. by left.
Qed.

(** If the loop of [reconstruct_path] returns, it has followed [k] links
    to the first arrival at [start], appended them, and added to the map
    only [(0, 0)] entries for keys it missed. *)
Lemma reconstruct_loop_returns (fuel : nat) (start current : Node)
    (P P' : gmap Node Node) (path path' : list Node) :
  reconstruct_loop fuel start current P path = Some (path', P') ->
  exists k,
    (k < fuel)%nat /\
    Nat.iter k (parent_at P) current = start /\
    (forall i, (i < k)%nat -> Nat.iter i (parent_at P) current <> start) /\
    path' = path ++ map (fun i => Nat.iter i (parent_at P) current) (seq 1 k) /\
    P ⊆ P' /\
    (forall m v, P' !! m = Some v -> P !! m = Some v \/ (P !! m = None /\ v = (0, 0))).
Proof.
  revert current P path. induction fuel as [|fuel IH]; intros current P path; [done|].
  cbn [reconstruct_loop]. destruct (decide (current = start)) as [->|Hne].
  - intros [= <- <-]. exists O. repeat split; try done; try lia.
    + by rewrite app_nil_r.
    + by left.
  - destruct (index_parents P current) as [next P1] eqn:Hidx.
    assert (next = parent_at P current) as Hnext
      by (unfold parent_at; by rewrite Hidx).
    assert (forall m, parent_at P1 m = parent_at P m) as Hext.
    { intros m. replace P1 with (index_parents P current).2 by (by rewrite Hidx).
      apply parent_at_index_parents. }
    destruct (index_parents_extends P current) as [Hsub Hnew].
    rewrite Hidx in Hsub, Hnew. cbn [snd] in Hsub, Hnew.
    intros H. apply IH in H as (k & Hk & Hreach & Hmin & -> & Hsub' & Hnew').
    exists (S k). split; [lia|]. split; [|split; [|split; [|split]]].
    + rewrite Nat.iter_succ_r, <- Hnext.
      by rewrite <- (iter_parent_at_ext P P1).
    + intros [|i] Hi; [done|]. rewrite Nat.iter_succ_r, <- Hnext.
      rewrite <- (iter_parent_at_ext P P1) by done. apply Hmin. lia.
    + rewrite <- app_assoc. f_equal. cbn [seq map app]. f_equal.
      * by rewrite Hnext.
      * rewrite <- (seq_shift k 1), map_map. apply map_ext. intros i.
        rewrite (iter_parent_at_ext P P1) by done.
        by rewrite Hnext, <- Nat.iter_succ_r.
    + by trans P1.
    + intros m v Hm. destruct (Hnew' m v Hm) as [H1|[H1 ->]].
      * by apply Hnew.
      * right. split; [|done]. by apply (lookup_weaken_None P P1).
Qed.

(** X21: [reconstruct_path] returns only if following [parents] from
    [goal] reaches [start]; the path is then the reversed chain to the
    first arrival at [start] (no earlier node of the chain is [start]),
    and the map it leaves has the caller's entries plus [(0, 0)] for the
    keys that were missing. *)
Theorem reconstruct_path_returns (fuel : nat) (start goal : Node)
    (P P' : gmap Node Node) (path : list Node) :
  reconstruct_path fuel start goal P = Some (path, P') ->
  exists k,
    (k < fuel)%nat /\
    Nat.iter k (parent_at P) goal = start /\
    (forall i, (i < k)%nat -> Nat.iter i (parent_at P) goal <> start) /\
    path = rev (parent_chain P goal k) /\
    P ⊆ P' /\
    (forall m v, P' !! m = Some v -> P !! m = Some v \/ (P !! m = None /\ v = (0, 0))).
Proof.
  unfold reconstruct_path.
  destruct (reconstruct_loop fuel start goal P [goal]) as [[path' P'']|] eqn:Hloop;
    [|done].
  intros [= <- <-].
  apply reconstruct_loop_returns in Hloop as (k & Hk & Hreach & Hmin & -> & Hsub & Hnew).
  exists k. repeat split; try done.
Qed.

Lemma reconstruct_path_returns_witness :
  exists path P',
    reconstruct_path 5 (1, 0) (1, 2) chain3 = Some (path, P') /\
    exists k,
      (k < 5)%nat /\
      Nat.iter k (parent_at chain3) (1, 2) = (1, 0) /\
      (forall i, (i < k)%nat -> Nat.iter i (parent_at chain3) (1, 2) <> (1, 0)) /\
      path = rev (parent_chain chain3 (1, 2) k) /\
      chain3 ⊆ P' /\
      (forall m v, P' !! m = Some v ->
                   chain3 !! m = Some v \/ (chain3 !! m = None /\ v = (0, 0))).
Proof.
  eexists. eexists. split; [vm_compute; reflexivity|].
  apply (reconstruct_path_returns 5 (1, 0) (1, 2) chain3).
  vm_compute. reflexivity.
Defined.

(** A chain that never reaches [start] keeps the loop running for ever. *)
Lemma reconstruct_path_diverges (start goal : Node) (P : gmap Node Node) :
  (forall k, Nat.iter k (parent_at P) goal <> start) ->
  forall fuel, reconstruct_path fuel start goal P = None.
Proof.
  intros Hnever fuel.
  unfold reconstruct_path.
  destruct (reconstruct_loop fuel start goal P [goal]) as [[path P']|] eqn:H;
    [|done].
  apply reconstruct_loop_returns in H as (k & _ & Hk & _). by destruct (Hnever k).
Qed.

Section Links.

Variables (INFINITY_int : Z) (graph : Map) (start goal : Node)
          (dataset_name : string) (step mfactor : Z).

#[local] Abbreviation relax :=
  (relax INFINITY_int graph start goal dataset_name mfactor).
#[local] Abbreviation expand :=
  (expand INFINITY_int graph start goal dataset_name step mfactor).
#[local] Abbreviation astar_loop :=
  (astar_loop INFINITY_int graph start goal dataset_name step mfactor).
#[local] Abbreviation astar_search :=
  (astar_search INFINITY_int graph start goal dataset_name step mfactor).
#[local] Abbreviation expansions :=
  (expansions INFINITY_int graph start goal dataset_name step mfactor).
#[local] Abbreviation step_links := (step_links graph step).
#[local] Abbreviation goal_pending := (goal_pending goal).

(** What one relaxation does to the tables: nothing, or one link from
    [neighbor] to [current] with [neighbor] queued. *)
Lemma relax_cases (current neighbor : Node) (st : search) :
  (parents (relax current st neighbor) = parents st /\
   openSet (relax current st neighbor) = openSet st) \/
  (exists f, parents (relax current st neighbor) = <[neighbor := current]> (parents st) /\
             openSet (relax current st neighbor) = put neighbor f (openSet st)).
Proof.
  unfold Astar.relax. destruct (decide (neighbor ∈ closedSet st)); [by left|].
  destruct (index_gscore (gscore st) current) as [gcur gs].
  destruct (match gs !! neighbor with
            | Some old => _
            | None => true
            end); [right; eauto|by left].
Qed.

Lemma step_links_refl (P : gmap Node Node) : step_links P P.
Proof. split; [by left|done]. Qed.

Lemma step_links_trans (P P' P'' : gmap Node Node) :
  step_links P P' -> step_links P' P'' -> step_links P P''.
Proof.
  intros [H1 H1'] [H2 H2']. split.
  - intros n p Hn. destruct (H2 n p Hn) as [Hn'|Hn']; [by apply H1|by right].
  - intros n Hn. by apply H2', H1'.
Qed.

Lemma relax_links (current neighbor : Node) (st : search) :
  neighbor ∈ neighbors graph current step ->
  step_links (parents st) (parents (relax current st neighbor)).
Proof.
  intros Hnb. destruct (relax_cases current neighbor st) as [[-> _]|(f & -> & _)].
  - apply step_links_refl.
  - split.
    + intros n p Hn. destruct (decide (neighbor = n)) as [->|Hne].
      * rewrite lookup_insert_eq in Hn. injection Hn as <-. by right.
      * rewrite lookup_insert_ne in Hn by done. by left.
    + intros n Hn. destruct (decide (neighbor = n)) as [->|Hne].
      * rewrite lookup_insert_eq. eauto.
      * by rewrite lookup_insert_ne.
Qed.

Lemma fold_relax_links (current : Node) (l : list Node) (st : search) :
  (forall n, n ∈ l -> n ∈ neighbors graph current step) ->
  step_links (parents st) (parents (fold_left (relax current) l st)).
Proof.
  revert st. induction l as [|n l IH]; intros st Hsub; [apply step_links_refl|].
  cbn [fold_left]. eapply step_links_trans.
  - apply (relax_links current n). apply Hsub. left.
  - apply IH. intros m Hm. apply Hsub. by right.
Qed.

Lemma astar_loop_links (fuel : nat) (st st' : search) (e : exit) :
  astar_loop fuel st = Some (e, st') -> step_links (parents st) (parents st').
Proof.
  revert st. induction fuel as [|fuel IH]; intros st; [done|].
  cbn [Astar.astar_loop]. destruct (get (openSet st)) as [[current rest]|].
  - destruct (decide (current = goal)).
    + intros [= <- <-]. apply step_links_refl.
    + intros H. apply IH in H. eapply step_links_trans; [|exact H].
      by apply (fold_relax_links current _
                  (mkSearch rest (gscore st) (closedSet st) (parents st))).
  - intros [= <- <-]. apply step_links_refl.
Qed.

(** X22: whatever the outcome, the map [astar_search] hands back differs
    from the caller's only by links from a node in bounds to a node it is
    a grid neighbour of; no entry is removed. *)
Theorem astar_search_links (fuel : nat) (parents0 P : gmap Node Node) :
  astar_search fuel parents0 = Some P ->
  (forall n p, P !! n = Some p ->
     parents0 !! n = Some p \/
     (in_bounds graph n = true /\ n ∈ neighbors graph p step)) /\
  (forall n, is_Some (parents0 !! n) -> is_Some (P !! n)).
Proof.
  unfold Astar.astar_search.
  destruct (astar_loop fuel (astar_init start parents0)) as [[e st]|] eqn:Hrun;
    [|done].
  intros [= <-]. apply astar_loop_links in Hrun as [H1 H2]. split; [|exact H2].
  intros n p Hn. destruct (H1 n p Hn) as [H|H]; [by left|right].
  split; [|done]. unfold neighbors in H. destruct p as [r c].
  by apply list_elem_of_filter in H as [H _].
Qed.

(** *** A search that fails records no predecessor for the goal *)

Lemma relax_goal_pending (parents0 : gmap Node Node) (current neighbor : Node)
    (st : search) :
  goal_pending parents0 st -> goal_pending parents0 (relax current st neighbor).
Proof.
  intros Hst. unfold goal_pending.
  destruct (relax_cases current neighbor st) as [[-> ->]|(f & -> & ->)]; [done|].
  intros Hne. destruct (decide (neighbor = goal)) as [->|Hng].
  - exists f. apply elem_of_put. by left.
  - rewrite lookup_insert_ne in Hne by done.
    destruct (Hst Hne) as [pr Hpr]. exists pr. apply elem_of_put. by right.
Qed.

Lemma fold_relax_goal_pending (parents0 : gmap Node Node) (current : Node)
    (l : list Node) (st : search) :
  goal_pending parents0 st -> goal_pending parents0 (fold_left (relax current) l st).
Proof.
  revert st. induction l as [|n l IH]; intros st Hst; [done|].
  cbn [fold_left]. by apply IH, relax_goal_pending.
Qed.

Lemma astar_loop_goal_pending (parents0 : gmap Node Node) (fuel : nat)
    (st st' : search) :
  goal_pending parents0 st ->
  astar_loop fuel st = Some (OpenEmpty, st') ->
  parents st' !! goal = parents0 !! goal.
Proof.
  revert st. induction fuel as [|fuel IH]; intros st Hst; [done|].
  cbn [Astar.astar_loop].
  destruct (get (openSet st)) as [[current rest]|] eqn:Hget.
  - destruct (decide (current = goal)) as [|Hne]; [done|].
    apply IH. apply fold_relax_goal_pending.
    unfold goal_pending. cbn [parents openSet]. intros Hp.
    destruct (Hst Hp) as [pr Hpr]. exists pr.
    unfold get in Hget. destruct (openSet st) as [|[q c] l]; [done|].
    injection Hget as -> ->.
    apply elem_of_cons in Hpr as [[= -> ->]|Hpr]; [done|done].
  - intros [= <-]. unfold get in Hget.
    destruct (openSet st) as [|[q c] l] eqn:Hopen; [|done].
    destruct (decide (parents st !! goal = parents0 !! goal)) as [|Hne]; [done|].
    destruct (Hst Hne) as [pr Hpr]. rewrite Hopen in Hpr.
    by apply elem_of_nil in Hpr.
Qed.

(** X23: when the queue runs empty the search has recorded no predecessor
    for the goal: its entry in [parents] is what the caller passed in. *)
Theorem failed_search_goal_unlinked (fuel : nat) (parents0 : gmap Node Node)
    (st : search) :
  astar_loop fuel (astar_init start parents0) = Some (OpenEmpty, st) ->
  parents st !! goal = parents0 !! goal.
Proof.
  apply astar_loop_goal_pending. unfold goal_pending. by cbn.
Qed.

End Links.

Lemma astar_search_links_witness :
  exists P,
    astar_search 2147483647 inked3 (0, 0) (1, 3) "saintgall" 1 1 100 ∅ = Some P /\
    ((forall n p, P !! n = Some p ->
        (∅ : gmap Node Node) !! n = Some p \/
        (in_bounds inked3 n = true /\ n ∈ neighbors inked3 p 1)) /\
     (forall n, is_Some ((∅ : gmap Node Node) !! n) -> is_Some (P !! n))).
Proof.
  eexists. split; [vm_compute; reflexivity|].
  apply (astar_search_links 2147483647 inked3 (0, 0) (1, 3) "saintgall" 1 1 100 ∅).
  vm_compute. reflexivity.
Defined.

Lemma failed_search_goal_unlinked_witness :
  exists st,
    astar_loop 2147483647 inked2 (1, 0) (1, 1) "saintgall" 2 1 10
               (astar_init (1, 0) ∅) = Some (OpenEmpty, st) /\
    parents st !! ((1, 1) : Node) = (∅ : gmap Node Node) !! ((1, 1) : Node).
Proof.
  eexists. split; [vm_compute; reflexivity|].
  apply (failed_search_goal_unlinked 2147483647 inked2 (1, 0) (1, 1)
           "saintgall" 2 1 10 ∅).
  vm_compute. reflexivity.
Defined.

(** X24: [closedSet] is declared and tested but never extended: a run
    started from [astar_search] ends, either way, with it empty. *)
Theorem closed_set_stays_empty (INFINITY_int : Z) (graph : Map)
    (start goal : Node) (dataset_name : string) (step mfactor : Z)
    (fuel : nat) (parents0 : gmap Node Node) (e : exit) (st : search) :
  astar_loop INFINITY_int graph start goal dataset_name step mfactor fuel
             (astar_init start parents0) = Some (e, st) ->
  closedSet st = ∅.
Proof. intros H. by apply astar_loop_closedSet in H. Qed.

Lemma closed_set_stays_empty_witness :
  exists e st,
    astar_loop 2147483647 inked3 (0, 0) (1, 3) "saintgall" 1 1 100
               (astar_init (0, 0) ∅) = Some (e, st) /\
    closedSet st = ∅.
Proof.
  eexists. eexists. split; [vm_compute; reflexivity|].
  apply (closed_set_stays_empty 2147483647 inked3 (0, 0) (1, 3) "saintgall"
           1 1 100 ∅ GoalPopped).
  vm_compute. reflexivity.
Defined.

(** X25: when [start] is the goal the first pop ends the search: nothing
    is expanded, the caller's map comes back unchanged, and
    [reconstruct_path] returns the one-node path. *)
Theorem astar_search_start_is_goal (INFINITY_int : Z) (graph : Map)
    (start : Node) (dataset_name : string) (step mfactor : Z) (fuel : nat)
    (parents0 : gmap Node Node) :
  astar_search INFINITY_int graph start start dataset_name step mfactor
               (S fuel) parents0 = Some parents0 /\
  expansions INFINITY_int graph start start dataset_name step mfactor
             (S fuel) (astar_init start parents0) = [] /\
  reconstruct_path (S fuel) start start parents0 = Some ([start], parents0).
Proof.
  unfold astar_search. cbn [astar_loop expansions astar_init put get openSet].
  rewrite !decide_True by done. cbn [parents].
  split; [done|]. split; [done|].
  unfold reconstruct_path. cbn [reconstruct_loop]. by rewrite decide_True.
Qed.

Lemma iter_after_missing (P : gmap Node Node) (goal : Node) (k : nat) :
  P !! goal = None -> parent_at P (0, 0) = (0, 0) ->
  Nat.iter (S k) (parent_at P) goal = (0, 0).
Proof.
  intros Hg H0. induction k as [|k IH].
  - cbn. unfold parent_at, index_parents. by rewrite Hg.
  - rewrite Nat.iter_succ, IH. exact H0.
Qed.

Lemma reconstruct_path_missing_goal_diverges (start goal : Node)
    (P : gmap Node Node) :
  P !! goal = None -> goal <> start -> start <> (0, 0) ->
  parent_at P (0, 0) = (0, 0) ->
  forall fuel, reconstruct_path fuel start goal P = None.
Proof.
  intros Hg Hne H0 HP. apply reconstruct_path_diverges.
  intros [|k]; [done|]. rewrite iter_after_missing by done. by intros <-.
Qed.

Lemma reconstruct_path_missing_goal_origin (goal : Node) (P : gmap Node Node)
    (fuel : nat) :
  P !! goal = None -> goal <> (0, 0) ->
  reconstruct_path (S (S fuel)) (0, 0) goal P
  = Some ([(0, 0); goal], <[goal := (0, 0)]> P).
Proof.
  intros Hg Hne. unfold reconstruct_path. cbn [reconstruct_loop].
  rewrite decide_False by done. unfold index_parents. rewrite Hg.
  by rewrite decide_True.
Qed.

Section AfterFailure.

Variables (INFINITY_int : Z) (graph : Map) (start goal : Node)
          (dataset_name : string) (step mfactor : Z).

Lemma open_empty_start_not_goal (fuel : nat) (parents0 : gmap Node Node)
    (st : search) :
  astar_loop INFINITY_int graph start goal dataset_name step mfactor fuel
             (astar_init start parents0) = Some (OpenEmpty, st) ->
  start <> goal.
Proof.
  destruct fuel as [|fuel]; [done|].
  cbn [astar_loop astar_init put get openSet]. by destruct (decide (start = goal)).
Qed.

(** X26: after a search that fails from an empty map the goal has no
    entry, so [reconstruct_path] reads [(0, 0)] for it: from a start at the
    origin it returns the two-node list [[start; goal]], from any other
    start it never returns unless [(0, 0)] has been given a predecessor. *)
Theorem reconstruct_after_failed_search (fuel : nat) (st : search) :
  astar_loop INFINITY_int graph start goal dataset_name step mfactor fuel
             (astar_init start ∅) = Some (OpenEmpty, st) ->
  parents st !! goal = None /\
  (start = (0, 0) ->
   forall f, reconstruct_path (S (S f)) start goal (parents st)
             = Some ([start; goal], <[goal := (0, 0)]> (parents st))) /\
  (start <> (0, 0) -> parents st !! ((0, 0) : Node) = None ->
   forall f, reconstruct_path f start goal (parents st) = None).
Proof.
  intros Hrun.
  pose proof (open_empty_start_not_goal _ _ _ Hrun) as Hne.
  assert (parents st !! goal = None) as Hg.
  { rewrite (astar_loop_goal_pending INFINITY_int graph start goal dataset_name
               step mfactor ∅ fuel (astar_init start ∅) st); [apply lookup_empty| |done].
    unfold goal_pending. by cbn. }
  split; [done|]. split.
  - intros -> f. apply reconstruct_path_missing_goal_origin; [done|by intros ->].
  - intros H0 HP f. apply reconstruct_path_missing_goal_diverges; try done.
    unfold parent_at, index_parents. by rewrite HP.
Qed.

End AfterFailure.

Lemma reconstruct_after_failed_search_witness :
  exists st,
    astar_loop 2147483647 inked2 (1, 0) (1, 1) "saintgall" 2 1 10
               (astar_init (1, 0) ∅) = Some (OpenEmpty, st) /\
    (parents st !! ((1, 1) : Node) = None /\
     (((1, 0) : Node) = (0, 0) ->
      forall f, reconstruct_path (S (S f)) (1, 0) (1, 1) (parents st)
                = Some ([(1, 0); (1, 1)], <[(1, 1) := (0, 0)]> (parents st))) /\
     (((1, 0) : Node) <> (0, 0) -> parents st !! ((0, 0) : Node) = None ->
      forall f, reconstruct_path f (1, 0) (1, 1) (parents st) = None)).
Proof.
  eexists. split; [vm_compute; reflexivity|].
  apply (reconstruct_after_failed_search 2147483647 inked2 (1, 0) (1, 1)
           "saintgall" 2 1 10).
  vm_compute. reflexivity.
Defined.

(** ** The data set name the program passes *)

(** X27: no data set name that [infer_dataset] returns selects the "MLS"
    weights of [compute_cost]: with the name inferred from any file name
    the cost is [0.5 V + 1 N + 50 M + 150 D + 50 D2], since none of "mls",
    "saintgall" and "NULL" compares equal to "MLS". *)
Theorem inferred_dataset_default_weights (INFINITY_int : Z) (graph : Map)
    (current neighbor start : Node) (filename : string) :
  compute_cost INFINITY_int graph current neighbor start
               (Utils.infer_dataset filename)
  = let '(d, d2) := D INFINITY_int graph neighbor in
    (0.5 * V neighbor start + 1 * N current neighbor + 50 * M graph neighbor
     + 150 * d + 50 * d2)%float.
Proof.
  unfold Utils.infer_dataset.
  destruct (Utils.string_find "mls" filename); [reflexivity|].
  destruct (Utils.string_find "saintgall" filename); reflexivity.
Qed.


End PlannerFacts.
